(** * Samudra Rakshak backend: shallow embedding of the telemetry store

    Embedding of [src/samudra_backend.py]: the three ingest handlers
    ([receive_vessel_data], [receive_buoy_data],
    [receive_basestation_data]), the history and latest reads, the status
    reads and the body of the background loop [check_device_status]. *)

From Stdlib Require Import String ZArith List Bool Lia.
From Stdlib Require Import DecimalString.
Import ListNotations.
Open Scope string_scope.
Open Scope Z_scope.
Open Scope list_scope.
Set Warnings "-register-all".

(** ** JSON values, as returned by [request.get_json()]

    A JSON number is modelled by one constructor: both [int] and [float]
    accept the format spec [.4f].  Objects are Python dicts: association
    lists in insertion order with unique keys. *)
Inductive json : Type :=
| JNull
| JBool (b : bool)
| JNum (n : Z)
| JStr (s : string)
| JArr (xs : list json)
| JObj (kvs : list (string * json)).

(** [d.get(k)]: [None] (here [JNull]) when the key is absent. *)
Fixpoint dict_get (kvs : list (string * json)) (k : string) : json :=
  match kvs with
  | [] => JNull
  | (k', v) :: rest => if String.eqb k k' then v else dict_get rest k
  end.

(** [d[k] = v] on a dict: replaces the value in place, or appends the key. *)
Fixpoint dict_setitem (kvs : list (string * json)) (k : string) (v : json)
  : list (string * json) :=
  match kvs with
  | [] => [(k, v)]
  | (k', v') :: rest =>
      if String.eqb k k' then (k', v) :: rest
      else (k', v') :: dict_setitem rest k v
  end.

(** Python exceptions that the handlers can raise and catch. *)
Inductive py_exc : Type :=
| TypeError
| ValueError
| OverflowError.

(** [value[key] = v]: only a dict supports item assignment with a string
    key; [str], [list], [int], [float], [bool] and [None] raise
    [TypeError]. *)
Definition setitem (value : json) (k : string) (v : json)
  : json + py_exc :=
  match value with
  | JObj kvs => inl (JObj (dict_setitem kvs k v))
  | _ => inr TypeError
  end.

(** The least magnitude of an [int] that [float(n)] cannot represent:
    conversion rounds to nearest, ties to even, and raises [OverflowError]
    once the rounded value reaches [2 ** 1024], which is from the midpoint
    between [sys.float_info.max] ([2 ** 1024 - 2 ** 971]) and [2 ** 1024]
    on. *)
Definition FLOAT_OVERFLOW_BOUND : Z := 2 ^ 1024 - 2 ^ 970.

(** [f"{value:.4f}"]: defined on [int], [float] and [bool]; an [int] is
    first converted to [float], which raises [OverflowError] beyond the
    float range; [None], containers raise [TypeError]; [str] raises
    [ValueError] ("Unknown format code 'f'"). *)
Definition format_4f (value : json) : option py_exc :=
  match value with
  | JNum n => if FLOAT_OVERFLOW_BOUND <=? Z.abs n then Some OverflowError else None
  | JBool _ => None
  | JStr _ => Some ValueError
  | _ => Some TypeError
  end.

(** ** Time

    [datetime.now()] is an instant, counted in microseconds.  The handlers
    store instants in two ways: as [isoformat()] text inside the record,
    rendered here by [isoformat], and in [system_status] as text that
    [check_device_status] parses back with [fromisoformat]; for naive
    datetimes that round trip is the identity, so [system_status] keeps the
    instant itself. *)
Definition instant := Z.

Definition isoformat (t : instant) : string :=
  NilEmpty.string_of_int (Z.to_int t).

(** [timedelta.total_seconds() > 30]: [total_seconds] is the microsecond
    count divided by [10**6] (correctly rounded), so the test is exact on
    microseconds. *)
Definition stale (current_time last_seen : instant) : bool :=
  30000000 <? current_time - last_seen.

(** ** Store

    The module-level globals of the script. *)
Inductive category : Type :=
| vessel
| buoy
| base_station.

Definition category_eqb (a b : category) : bool :=
  match a, b with
  | vessel, vessel | buoy, buoy | base_station, base_station => true
  | _, _ => false
  end.

Definition HISTORY_MAXLEN : nat := 1000.

Record system_status_t : Type := {
  vessel_online : bool;
  buoy_online : bool;
  base_station_online : bool;
  vessel_last_seen : option instant;
  buoy_last_seen : option instant;
  base_station_last_seen : option instant;
  total_messages : Z
}.

Record store : Type := {
  vessel_data_history : list json;
  buoy_data_history : list json;
  base_station_data_history : list json;
  current_vessel_data : json;
  current_buoy_data : json;
  current_base_station_data : json;
  system_status : system_status_t
}.

Definition initial_status : system_status_t := {|
  vessel_online := false;
  buoy_online := false;
  base_station_online := false;
  vessel_last_seen := None;
  buoy_last_seen := None;
  base_station_last_seen := None;
  total_messages := 0
|}.

Definition initial_store : store := {|
  vessel_data_history := [];
  buoy_data_history := [];
  base_station_data_history := [];
  current_vessel_data := JObj [];
  current_buoy_data := JObj [];
  current_base_station_data := JObj [];
  system_status := initial_status
|}.

(** [deque(maxlen=1000).append(x)]: when full, the leftmost item is
    discarded. *)
Definition deque_append (maxlen : nat) (d : list json) (x : json) : list json :=
  if Nat.ltb (length d) maxlen then d ++ [x] else tl (d ++ [x]).

(** Per-category access to the globals, matching the three copies of each
    handler. *)
Definition history_of (c : category) (s : store) : list json :=
  match c with
  | vessel => vessel_data_history s
  | buoy => buoy_data_history s
  | base_station => base_station_data_history s
  end.

Definition current_of (c : category) (s : store) : json :=
  match c with
  | vessel => current_vessel_data s
  | buoy => current_buoy_data s
  | base_station => current_base_station_data s
  end.

Definition online_of (c : category) (st : system_status_t) : bool :=
  match c with
  | vessel => vessel_online st
  | buoy => buoy_online st
  | base_station => base_station_online st
  end.

Definition last_seen_of (c : category) (st : system_status_t) : option instant :=
  match c with
  | vessel => vessel_last_seen st
  | buoy => buoy_last_seen st
  | base_station => base_station_last_seen st
  end.

(** [system_status[c_online] = b]. *)
Definition set_online (c : category) (b : bool) (st : system_status_t)
  : system_status_t :=
  match c with
  | vessel => {| vessel_online := b; buoy_online := buoy_online st;
      base_station_online := base_station_online st;
      vessel_last_seen := vessel_last_seen st;
      buoy_last_seen := buoy_last_seen st;
      base_station_last_seen := base_station_last_seen st;
      total_messages := total_messages st |}
  | buoy => {| vessel_online := vessel_online st; buoy_online := b;
      base_station_online := base_station_online st;
      vessel_last_seen := vessel_last_seen st;
      buoy_last_seen := buoy_last_seen st;
      base_station_last_seen := base_station_last_seen st;
      total_messages := total_messages st |}
  | base_station => {| vessel_online := vessel_online st;
      buoy_online := buoy_online st; base_station_online := b;
      vessel_last_seen := vessel_last_seen st;
      buoy_last_seen := buoy_last_seen st;
      base_station_last_seen := base_station_last_seen st;
      total_messages := total_messages st |}
  end.

(** [system_status[c_last_seen] = datetime.now().isoformat()]. *)
Definition set_last_seen (c : category) (t : instant) (st : system_status_t)
  : system_status_t :=
  match c with
  | vessel => {| vessel_online := vessel_online st;
      buoy_online := buoy_online st;
      base_station_online := base_station_online st;
      vessel_last_seen := Some t;
      buoy_last_seen := buoy_last_seen st;
      base_station_last_seen := base_station_last_seen st;
      total_messages := total_messages st |}
  | buoy => {| vessel_online := vessel_online st;
      buoy_online := buoy_online st;
      base_station_online := base_station_online st;
      vessel_last_seen := vessel_last_seen st;
      buoy_last_seen := Some t;
      base_station_last_seen := base_station_last_seen st;
      total_messages := total_messages st |}
  | base_station => {| vessel_online := vessel_online st;
      buoy_online := buoy_online st;
      base_station_online := base_station_online st;
      vessel_last_seen := vessel_last_seen st;
      buoy_last_seen := buoy_last_seen st;
      base_station_last_seen := Some t;
      total_messages := total_messages st |}
  end.

(** [system_status['total_messages'] = n]. *)
Definition set_total (n : Z) (st : system_status_t) : system_status_t :=
  {| vessel_online := vessel_online st;
     buoy_online := buoy_online st;
     base_station_online := base_station_online st;
     vessel_last_seen := vessel_last_seen st;
     buoy_last_seen := buoy_last_seen st;
     base_station_last_seen := base_station_last_seen st;
     total_messages := n |}.

(** [system_status['total_messages'] += 1]. *)
Definition incr_total (st : system_status_t) : system_status_t :=
  {| vessel_online := vessel_online st;
     buoy_online := buoy_online st;
     base_station_online := base_station_online st;
     vessel_last_seen := vessel_last_seen st;
     buoy_last_seen := buoy_last_seen st;
     base_station_last_seen := base_station_last_seen st;
     total_messages := total_messages st + 1 |}.

(** [c_data_history.append(data)] followed by [current_c_data = data]. *)
Definition store_record (c : category) (data : json) (s : store) : store :=
  match c with
  | vessel => {|
      vessel_data_history := deque_append HISTORY_MAXLEN (vessel_data_history s) data;
      buoy_data_history := buoy_data_history s;
      base_station_data_history := base_station_data_history s;
      current_vessel_data := data;
      current_buoy_data := current_buoy_data s;
      current_base_station_data := current_base_station_data s;
      system_status := system_status s |}
  | buoy => {|
      vessel_data_history := vessel_data_history s;
      buoy_data_history := deque_append HISTORY_MAXLEN (buoy_data_history s) data;
      base_station_data_history := base_station_data_history s;
      current_vessel_data := current_vessel_data s;
      current_buoy_data := data;
      current_base_station_data := current_base_station_data s;
      system_status := system_status s |}
  | base_station => {|
      vessel_data_history := vessel_data_history s;
      buoy_data_history := buoy_data_history s;
      base_station_data_history :=
        deque_append HISTORY_MAXLEN (base_station_data_history s) data;
      current_vessel_data := current_vessel_data s;
      current_buoy_data := current_buoy_data s;
      current_base_station_data := data;
      system_status := system_status s |}
  end.

Definition with_status (s : store) (st : system_status_t) : store :=
  {| vessel_data_history := vessel_data_history s;
     buoy_data_history := buoy_data_history s;
     base_station_data_history := base_station_data_history s;
     current_vessel_data := current_vessel_data s;
     current_buoy_data := current_buoy_data s;
     current_base_station_data := current_base_station_data s;
     system_status := st |}.

(** The body of [with data_lock:] in the ingest handlers; [now2] is the
    second [datetime.now()] call, the one that sets [last_seen]. *)
Definition critical_section (c : category) (data : json) (now2 : instant)
  (s : store) : store :=
  let s1 := store_record c data s in
  with_status s1
    (incr_total (set_last_seen c now2 (set_online c true (system_status s1)))).

(** ** Handlers *)

(** [data.get(k)] on the parsed body (a dict once the stamp succeeded). *)
Definition json_get (data : json) (k : string) : json :=
  match data with
  | JObj kvs => dict_get kvs k
  | _ => JNull
  end.

(** The Socket.IO event of each category. *)
Definition event_name (c : category) : string :=
  match c with
  | vessel => "vessel_update"
  | buoy => "buoy_update"
  | base_station => "basestation_update"
  end.

(** The [print] after the broadcast: the vessel and buoy lines format
    [data.get('lat')] then [data.get('lon')] with [:.4f]; the base station
    line prints [data.get('messages_relayed', 0)] without a format spec and
    cannot raise.  The identification fields ([id], [buoy_id]) are printed
    with no format spec either. *)
Definition log_received (c : category) (data : json) : option py_exc :=
  match c with
  | vessel | buoy =>
      match format_4f (json_get data "lat") with
      | Some e => Some e
      | None => format_4f (json_get data "lon")
      end
  | base_station => None
  end.

Record response : Type := {
  status_code : Z;
  body : json
}.

(** [str(e)], as far as the model distinguishes exceptions. *)
Definition exc_message (e : py_exc) : string :=
  match e with
  | TypeError => "TypeError"
  | ValueError => "ValueError"
  | OverflowError => "OverflowError"
  end.

Definition error_response (e : py_exc) : response :=
  {| status_code := 400;
     body := JObj [("status", JStr "error"); ("message", JStr (exc_message e))] |}.

Definition success_response (data : json) : response :=
  {| status_code := 200;
     body := JObj [("status", JStr "success"); ("message", JStr "Data received");
                   ("timestamp", json_get data "server_timestamp")] |}.

(** One POST to [/api/<c>/data] (the [OPTIONS] pre-flight returns before
    any of this).  [payload] is what [request.get_json()] returned; [now1]
    and [now2] are the two [datetime.now()] readings (stamp, then
    [last_seen]).  The result is the response, the store after the call and
    the events emitted with [socketio.emit]. *)
Definition receive_data (c : category) (now1 now2 : instant) (payload : json)
  (s : store) : response * store * list (string * json) :=
  match setitem payload "server_timestamp" (JStr (isoformat now1)) with
  | inr e => (error_response e, s, [])
  | inl data =>
      let s' := critical_section c data now2 s in
      let emitted := [(event_name c, data)] in
      match log_received c data with
      | Some e => (error_response e, s', emitted)
      | None => (success_response data, s', emitted)
      end
  end.

Definition receive_vessel_data := receive_data vessel.
Definition receive_buoy_data := receive_data buoy.

(** The record the handler stores, when it gets that far. *)
Definition stamped (now1 : instant) (payload : json) : option json :=
  match setitem payload "server_timestamp" (JStr (isoformat now1)) with
  | inl data => Some data
  | inr _ => None
  end.

(** ** Reads *)

(** Python's [l[start:]] on a list. *)
Definition py_slice_from (l : list json) (start : Z) : list json :=
  let n := Z.of_nat (length l) in
  let i := if start <? 0 then Z.max 0 (start + n) else Z.min start n in
  skipn (Z.to_nat i) l.

(** [request.args.get('limit', 100, type=int)]: [None] when the query has
    no [limit], [Some None] when [int()] rejects its text (the default is
    then used), [Some (Some n)] when it parses to [n]. *)
Definition args_get_limit (arg : option (option Z)) : Z :=
  match arg with
  | Some (Some n) => n
  | _ => 100
  end.

(** [get_vessel_history], [get_buoy_history], [get_basestation_history]:
    [list(history)[-limit:]]. *)
Definition get_history (c : category) (arg : option (option Z)) (s : store)
  : list json :=
  let limit := args_get_limit arg in
  py_slice_from (history_of c s) (- limit).

Definition get_latest (c : category) (s : store) : json := current_of c s.

Definition get_system_status (s : store) : system_status_t := system_status s.

Definition get_all_latest (s : store) : json * json * json * system_status_t :=
  (current_vessel_data s, current_buoy_data s, current_base_station_data s,
   system_status s).

(** ** Background task: one iteration of [check_device_status] after its
    [time.sleep(30)]. *)
Definition check_category (c : category) (current_time : instant)
  (st : system_status_t) : system_status_t :=
  match last_seen_of c st with
  | Some last_seen =>
      if stale current_time last_seen then set_online c false st else st
  | None => st
  end.

Definition check_device_status (current_time : instant) (s : store) : store :=
  with_status s
    (check_category base_station current_time
       (check_category buoy current_time
          (check_category vessel current_time (system_status s)))).

(** ** Traces of calls *)
Inductive op : Type :=
| Ingest (c : category) (now1 now2 : instant) (payload : json)
| Sweep (current_time : instant)
| ReadLatest (c : category)
| ReadHistory (c : category) (arg : option (option Z))
| ReadStatus
| ReadAllLatest.

Definition exec (o : op) (s : store) : store :=
  match o with
  | Ingest c now1 now2 payload =>
      let '(_, s', _) := receive_data c now1 now2 payload s in s'
  | Sweep t => check_device_status t s
  | _ => s
  end.

Fixpoint run (s : store) (ops : list op) : store :=
  match ops with
  | [] => s
  | o :: rest => run (exec o s) rest
  end.

(** The records accepted into category [c] by a trace, in order. *)
Fixpoint accepted (c : category) (ops : list op) : list json :=
  match ops with
  | [] => []
  | Ingest c' now1 _ payload :: rest =>
      let here :=
        if category_eqb c c' then
          match stamped now1 payload with Some d => [d] | None => [] end
        else [] in
      here ++ accepted c rest
  | _ :: rest => accepted c rest
  end.

(** The last [k] items of a list. *)
Definition lastn (k : nat) (l : list json) : list json :=
  skipn (length l - k) l.

(** Number of records an operation appends to a history: one for an ingest
    whose body is a dict, zero otherwise. *)
Definition accepts (o : op) : nat :=
  match o with
  | Ingest _ now1 _ payload =>
      match stamped now1 payload with Some _ => 1 | None => 0 end
  | _ => 0
  end.

Fixpoint n_accepted (ops : list op) : nat :=
  match ops with
  | [] => 0
  | o :: rest => accepts o + n_accepted rest
  end.

(** The ingests of a trace that accepted a record into [c], in order: the
    stamped record and the second clock reading of each. *)
Fixpoint accepted_ingests (c : category) (ops : list op) : list (json * instant) :=
  match ops with
  | [] => []
  | Ingest c' now1 now2 payload :: rest =>
      let here :=
        if category_eqb c c' then
          match stamped now1 payload with Some d => [(d, now2)] | None => [] end
        else [] in
      here ++ accepted_ingests c rest
  | _ :: rest => accepted_ingests c rest
  end.

(** What one sweep does to a category's flag. *)
Definition swept_online (c : category) (t : instant) (st : system_status_t) : bool :=
  match last_seen_of c st with
  | Some last_seen => if stale t last_seen then false else online_of c st
  | None => online_of c st
  end.

(** The status part of a sweep. *)
Definition sweep_status (t : instant) (st : system_status_t) : system_status_t :=
  check_category base_station t (check_category buoy t (check_category vessel t st)).

Definition vessel_seen_store : store :=
  let '(_, s, _) :=
    receive_vessel_data 5 5
      (JObj [("id", JStr "V1"); ("lat", JNum 12); ("lon", JNum 77)])
      initial_store in s.

Definition sample_vessel_record : json :=
  JObj [("id", JStr "V1"); ("lat", JNum 12); ("lon", JNum 77)].

(** ** Concurrent interleavings of the handlers

    Each request runs on its own thread ([async_mode='threading']).  An
    ingest thread goes through the statements of its handler one at a time,
    and other threads can run between any two of them: the stamp on its own
    dict, taking [data_lock], the five statements of the critical section,
    releasing the lock, then the broadcast and the log line.  The last
    statement, [system_status['total_messages'] += 1], is itself two steps
    for the interpreter: it reads the counter ([BINARY_SUBSCR]), then
    stores the value read plus one ([STORE_SUBSCR]); another thread may run
    in between.  The read
    handlers ([get_latest_*], [get_all_latest], [get_system_status],
    [handle_request_all_data]) take [data_lock], read the globals and
    release it; a state where a reader holds the lock is exactly what such
    a read returns. *)
Module Concurrent.

Inductive ipc : Type :=
| IStart | IAcquire | IAppend | ILatest | IOnline | ILastSeen | ICount
| ICountStore (v : Z)  (* has read [total_messages] as [v], not yet stored *)
| IRelease | IEmit | IDone | IFailed.

Record ithread : Type := {
  t_cat : category;
  t_rec : json;      (* the handler's local [data] *)
  t_seen : instant;  (* its second [datetime.now()] reading *)
  t_pc : ipc
}.

Inductive holder : Type :=
| HIngest (i : nat)
| HReader.

Record cstate : Type := {
  cst : store;
  lock : option holder;
  threads : list ithread
}.

Definition init : cstate := {| cst := initial_store; lock := None; threads := [] |}.

Definition in_cs (p : ipc) : bool :=
  match p with
  | IAppend | ILatest | IOnline | ILastSeen | ICount | ICountStore _ | IRelease => true
  | _ => false
  end.

(** The thread has written both [current_c_data] and [c_last_seen]. *)
Definition past_write (p : ipc) : bool :=
  match p with
  | ICount | ICountStore _ | IRelease | IEmit | IDone => true
  | _ => false
  end.

Fixpoint upd (ts : list ithread) (i : nat) (x : ithread) : list ithread :=
  match ts, i with
  | [], _ => []
  | _ :: rest, O => x :: rest
  | y :: rest, S i' => y :: upd rest i' x
  end.

Definition with_pc (th : ithread) (p : ipc) : ithread :=
  {| t_cat := t_cat th; t_rec := t_rec th; t_seen := t_seen th; t_pc := p |}.

(** Thread [i] moves to [th'], the store becomes [s'], the lock [l']. *)
Definition next (cs : cstate) (i : nat) (th' : ithread) (s' : store)
  (l' : option holder) : cstate :=
  {| cst := s'; lock := l'; threads := upd (threads cs) i th' |}.

(** [c_data_history.append(data)] alone. *)
Definition append_history (c : category) (d : json) (s : store) : store :=
  match c with
  | vessel => {|
      vessel_data_history := deque_append HISTORY_MAXLEN (vessel_data_history s) d;
      buoy_data_history := buoy_data_history s;
      base_station_data_history := base_station_data_history s;
      current_vessel_data := current_vessel_data s;
      current_buoy_data := current_buoy_data s;
      current_base_station_data := current_base_station_data s;
      system_status := system_status s |}
  | buoy => {|
      vessel_data_history := vessel_data_history s;
      buoy_data_history := deque_append HISTORY_MAXLEN (buoy_data_history s) d;
      base_station_data_history := base_station_data_history s;
      current_vessel_data := current_vessel_data s;
      current_buoy_data := current_buoy_data s;
      current_base_station_data := current_base_station_data s;
      system_status := system_status s |}
  | base_station => {|
      vessel_data_history := vessel_data_history s;
      buoy_data_history := buoy_data_history s;
      base_station_data_history :=
        deque_append HISTORY_MAXLEN (base_station_data_history s) d;
      current_vessel_data := current_vessel_data s;
      current_buoy_data := current_buoy_data s;
      current_base_station_data := current_base_station_data s;
      system_status := system_status s |}
  end.

(** [current_c_data = data] alone. *)
Definition set_current (c : category) (d : json) (s : store) : store :=
  match c with
  | vessel => {|
      vessel_data_history := vessel_data_history s;
      buoy_data_history := buoy_data_history s;
      base_station_data_history := base_station_data_history s;
      current_vessel_data := d;
      current_buoy_data := current_buoy_data s;
      current_base_station_data := current_base_station_data s;
      system_status := system_status s |}
  | buoy => {|
      vessel_data_history := vessel_data_history s;
      buoy_data_history := buoy_data_history s;
      base_station_data_history := base_station_data_history s;
      current_vessel_data := current_vessel_data s;
      current_buoy_data := d;
      current_base_station_data := current_base_station_data s;
      system_status := system_status s |}
  | base_station => {|
      vessel_data_history := vessel_data_history s;
      buoy_data_history := buoy_data_history s;
      base_station_data_history := base_station_data_history s;
      current_vessel_data := current_vessel_data s;
      current_buoy_data := current_buoy_data s;
      current_base_station_data := d;
      system_status := system_status s |}
  end.

Definition map_status (f : system_status_t -> system_status_t) (s : store) : store :=
  with_status s (f (system_status s)).

Inductive step : cstate -> cstate -> Prop :=
| StSpawn (cs : cstate) (c : category) (payload : json) :
    step cs {| cst := cst cs; lock := lock cs;
               threads := threads cs ++
                 [{| t_cat := c; t_rec := payload; t_seen := 0; t_pc := IStart |}] |}
| StStamp (cs : cstate) (i : nat) (th : ithread) (now1 : instant) (d : json) :
    nth_error (threads cs) i = Some th -> t_pc th = IStart ->
    setitem (t_rec th) "server_timestamp" (JStr (isoformat now1)) = inl d ->
    step cs (next cs i {| t_cat := t_cat th; t_rec := d; t_seen := t_seen th;
                          t_pc := IAcquire |} (cst cs) (lock cs))
| StStampFail (cs : cstate) (i : nat) (th : ithread) (now1 : instant) (e : py_exc) :
    nth_error (threads cs) i = Some th -> t_pc th = IStart ->
    setitem (t_rec th) "server_timestamp" (JStr (isoformat now1)) = inr e ->
    step cs (next cs i (with_pc th IFailed) (cst cs) (lock cs))
| StAcquire (cs : cstate) (i : nat) (th : ithread) :
    nth_error (threads cs) i = Some th -> t_pc th = IAcquire ->
    lock cs = None ->
    step cs (next cs i (with_pc th IAppend) (cst cs) (Some (HIngest i)))
| StAppend (cs : cstate) (i : nat) (th : ithread) :
    nth_error (threads cs) i = Some th -> t_pc th = IAppend ->
    step cs (next cs i (with_pc th ILatest)
               (append_history (t_cat th) (t_rec th) (cst cs)) (lock cs))
| StLatest (cs : cstate) (i : nat) (th : ithread) :
    nth_error (threads cs) i = Some th -> t_pc th = ILatest ->
    step cs (next cs i (with_pc th IOnline)
               (set_current (t_cat th) (t_rec th) (cst cs)) (lock cs))
| StOnline (cs : cstate) (i : nat) (th : ithread) :
    nth_error (threads cs) i = Some th -> t_pc th = IOnline ->
    step cs (next cs i (with_pc th ILastSeen)
               (map_status (set_online (t_cat th) true) (cst cs)) (lock cs))
| StLastSeen (cs : cstate) (i : nat) (th : ithread) (now2 : instant) :
    nth_error (threads cs) i = Some th -> t_pc th = ILastSeen ->
    step cs (next cs i {| t_cat := t_cat th; t_rec := t_rec th; t_seen := now2;
                          t_pc := ICount |}
               (map_status (set_last_seen (t_cat th) now2) (cst cs)) (lock cs))
| StCount (cs : cstate) (i : nat) (th : ithread) :
    nth_error (threads cs) i = Some th -> t_pc th = ICount ->
    step cs (next cs i
               (with_pc th (ICountStore (total_messages (system_status (cst cs)))))
               (cst cs) (lock cs))
| StCountStore (cs : cstate) (i : nat) (th : ithread) (v : Z) :
    nth_error (threads cs) i = Some th -> t_pc th = ICountStore v ->
    step cs (next cs i (with_pc th IRelease)
               (map_status (set_total (v + 1)) (cst cs)) (lock cs))
| StRelease (cs : cstate) (i : nat) (th : ithread) :
    nth_error (threads cs) i = Some th -> t_pc th = IRelease ->
    step cs (next cs i (with_pc th IEmit) (cst cs) None)
| StEmit (cs : cstate) (i : nat) (th : ithread) :
    nth_error (threads cs) i = Some th -> t_pc th = IEmit ->
    step cs (next cs i (with_pc th IDone) (cst cs) (lock cs))
| StReaderAcquire (cs : cstate) :
    lock cs = None ->
    step cs {| cst := cst cs; lock := Some HReader; threads := threads cs |}
| StReaderRelease (cs : cstate) :
    lock cs = Some HReader ->
    step cs {| cst := cst cs; lock := None; threads := threads cs |}.

Inductive reachable : cstate -> Prop :=
| reach_init : reachable init
| reach_step (cs cs' : cstate) : reachable cs -> step cs cs' -> reachable cs'.

(** One vessel ingest of [{"id": "V1"}] has gone through its critical
    section (clock readings 5 and 6) and a reader has taken the lock. *)
Definition after_one_vessel_ingest : cstate :=
  {| cst := critical_section vessel
              (JObj [("id", JStr "V1"); ("server_timestamp", JStr (isoformat 5))])
              6 initial_store;
     lock := Some HReader;
     threads := [{| t_cat := vessel;
                    t_rec := JObj [("id", JStr "V1");
                                   ("server_timestamp", JStr (isoformat 5))];
                    t_seen := 6; t_pc := IEmit |}] |}.

(** What a read of category [c] must see: either nothing was ever
    accepted ([current_c_data] is still [{}] and [last_seen] is unset), or
    [current_c_data] is the whole record of one ingest that has finished
    its writes and [last_seen] is that same ingest's clock reading. *)
Definition cat_consistent (cs : cstate) (c : category) : Prop :=
  (current_of c (cst cs) = JObj [] /\ last_seen_of c (system_status (cst cs)) = None)
  \/ exists (i : nat) (th : ithread),
       nth_error (threads cs) i = Some th /\ t_cat th = c /\
       past_write (t_pc th) = true /\
       current_of c (cst cs) = t_rec th /\
       last_seen_of c (system_status (cst cs)) = Some (t_seen th).

(** Some ingest thread of category [c] is between [current_c_data = data]
    and [c_last_seen = ...]. *)
Definition busy (cs : cstate) (c : category) : Prop :=
  exists (i : nat) (th : ithread),
    nth_error (threads cs) i = Some th /\ t_cat th = c /\
    (t_pc th = IOnline \/ t_pc th = ILastSeen).

(** The invariant of the interleavings: only the lock holder is inside the
    critical section, a thread between its two writes has its record
    published, and every category is consistent unless such a thread is
    mid-update on it. *)
Definition Inv (cs : cstate) : Prop :=
  (forall i th, nth_error (threads cs) i = Some th ->
     in_cs (t_pc th) = true -> lock cs = Some (HIngest i)) /\
  (forall i th, nth_error (threads cs) i = Some th ->
     (t_pc th = IOnline \/ t_pc th = ILastSeen) ->
     current_of (t_cat th) (cst cs) = t_rec th) /\
  (forall c, cat_consistent cs c \/ busy cs c).

(** A step of thread [i] from [th] to [th'] keeps what a consistent
    category may refer to. *)
Definition keeps (th th' : ithread) : Prop :=
  t_cat th' = t_cat th /\
  (past_write (t_pc th) = true ->
   t_rec th' = t_rec th /\ t_seen th' = t_seen th /\ past_write (t_pc th') = true).

(** Whether a thread has executed [system_status['total_messages'] += 1]. *)
Definition counted (p : ipc) : nat :=
  match p with
  | IRelease | IEmit | IDone => 1
  | _ => 0
  end.

Fixpoint n_counted (ts : list ithread) : nat :=
  match ts with
  | [] => 0
  | th :: rest => counted (t_pc th) + n_counted rest
  end.

End Concurrent.

(** ** Sanity checks on small inputs *)

Example deque_append_full :
  deque_append 2 [JNum 1; JNum 2] (JNum 3) = [JNum 2; JNum 3].
Proof. reflexivity. Qed.

(** [format(2 ** 1024 - 2 ** 970, '.4f')] raises [OverflowError]; one less
    rounds to [sys.float_info.max] and formats. *)
Example format_4f_overflow_boundary :
  format_4f (JNum FLOAT_OVERFLOW_BOUND) = Some OverflowError /\
  format_4f (JNum (Z.opp FLOAT_OVERFLOW_BOUND)) = Some OverflowError /\
  format_4f (JNum (FLOAT_OVERFLOW_BOUND - 1)) = None.
Proof. split; [|split]; reflexivity. Qed.

Example slice_last_two :
  py_slice_from [JNum 1; JNum 2; JNum 3] (-2) = [JNum 2; JNum 3].
Proof. reflexivity. Qed.

Example vessel_ingest_ok :
  let '(r, s, ev) :=
    receive_vessel_data 5 6
      (JObj [("id", JStr "V1"); ("lat", JNum 12); ("lon", JNum 77)])
      initial_store in
  status_code r = 200 /\ total_messages (system_status s) = 1 /\
  vessel_last_seen (system_status s) = Some 6 /\ length ev = 1%nat.
Proof. repeat split; reflexivity. Qed.

(** ** Lemmas on the store operations *)

Lemma skipn_S_tl (n : nat) (l : list json) :
  skipn (S n) l = tl (skipn n l).
Proof.
  revert l; induction n as [|n IH]; intros l.
  - destruct l; reflexivity.
  - destruct l as [|a l]; [reflexivity|]. simpl. apply IH.
Qed.

Lemma length_lastn (k : nat) (l : list json) :
  length (lastn k l) = Nat.min k (length l).
Proof. unfold lastn. rewrite length_skipn. lia. Qed.

Lemma deque_append_lastn (H : list json) (x : json) :
  deque_append HISTORY_MAXLEN (lastn HISTORY_MAXLEN H) x
  = lastn HISTORY_MAXLEN (H ++ [x]).
Proof.
  unfold deque_append, HISTORY_MAXLEN.
  rewrite length_lastn.
  destruct (Nat.ltb_spec (Nat.min 1000 (length H)) 1000) as [Hlt|Hge].
  - unfold lastn. rewrite length_app. simpl.
    replace (length H - 1000)%nat with 0%nat by lia.
    replace (length H + 1 - 1000)%nat with 0%nat by lia.
    reflexivity.
  - unfold lastn. rewrite length_app. simpl.
    replace (length H + 1 - 1000)%nat with (S (length H - 1000)) by lia.
    rewrite skipn_S_tl, skipn_app.
    replace (length H - 1000 - length H)%nat with 0%nat by lia.
    reflexivity.
Qed.

Lemma history_exec (c : category) (o : op) (s : store) :
  history_of c (exec o s)
  = fold_left (deque_append HISTORY_MAXLEN) (accepted c [o]) (history_of c s).
Proof.
  destruct o as [c' now1 now2 payload| t | c' | c' arg | |]; try reflexivity.
  - simpl. unfold receive_data, stamped.
    destruct (setitem payload "server_timestamp" (JStr (isoformat now1)))
      as [data|e]; [|destruct c, c'; reflexivity].
    destruct (log_received c' data); destruct c, c'; reflexivity.
Qed.

Lemma history_run (c : category) (ops : list op) :
  forall (s : store) (H : list json),
  history_of c s = lastn HISTORY_MAXLEN H ->
  history_of c (run s ops) = lastn HISTORY_MAXLEN (H ++ accepted c ops).
Proof.
  induction ops as [|o rest IH]; intros s H Hs.
  - simpl. rewrite app_nil_r. exact Hs.
  - simpl run.
    assert (Hacc : accepted c (o :: rest) = accepted c [o] ++ accepted c rest).
    { destruct o; simpl; try reflexivity. rewrite app_nil_r. reflexivity. }
    rewrite Hacc, app_assoc. apply IH.
    rewrite history_exec, Hs.
    destruct o as [c' now1 now2 payload| | | | |]; simpl; try (rewrite app_nil_r; reflexivity).
    destruct (category_eqb c c'); simpl; [|rewrite app_nil_r; reflexivity].
    destruct (stamped now1 payload) as [d|]; simpl;
      [apply deque_append_lastn | rewrite app_nil_r; reflexivity].
Qed.

Lemma history_of_initial (c : category) : history_of c initial_store = [].
Proof. destruct c; reflexivity. Qed.

Lemma lastn_nil (k : nat) : lastn k [] = [].
Proof. reflexivity. Qed.

(** A positive limit [k] covering the whole list returns all of it. *)
Lemma py_slice_from_neg_all (l : list json) (k : Z) :
  Z.of_nat (length l) <= k -> py_slice_from l (- k) = l.
Proof.
  intros Hk. unfold py_slice_from.
  destruct (Z.ltb_spec (- k) 0) as [Hneg|Hnneg].
  - replace (Z.max 0 (- k + Z.of_nat (length l))) with 0 by lia. reflexivity.
  - replace (Z.min (- k) (Z.of_nat (length l))) with 0 by lia. reflexivity.
Qed.

(** ** C1: bounded history *)

(** Claim C1.  From the initial store, after any trace of calls (ingests
    into any categories, sweeps, reads), each category's history holds at
    most 1000 records, and [history(c, 1000)] returns exactly the last
    [min 1000 N] records accepted into [c] (N the number accepted), in
    acceptance order, oldest first.  Every prefix of a trace is a trace, so
    the bound holds at all times. *)
Theorem history_bounded_keeps_last_1000 (ops : list op) (c : category) :
  let s := run initial_store ops in
  (length (history_of c s) <= 1000)%nat /\
  get_history c (Some (Some 1000)) s = lastn 1000 (accepted c ops) /\
  length (get_history c (Some (Some 1000)) s)
  = Nat.min 1000 (length (accepted c ops)).
Proof.
  cbv zeta.
  assert (Hh : history_of c (run initial_store ops)
               = lastn HISTORY_MAXLEN ([] ++ accepted c ops)).
  { apply history_run. rewrite history_of_initial. reflexivity. }
  simpl app in Hh.
  assert (Hlen : (length (history_of c (run initial_store ops)) <= 1000)%nat).
  { rewrite Hh, length_lastn. unfold HISTORY_MAXLEN. lia. }
  assert (Hget : get_history c (Some (Some 1000)) (run initial_store ops)
                 = lastn 1000 (accepted c ops)).
  { unfold get_history, args_get_limit.
    rewrite py_slice_from_neg_all by lia. exact Hh. }
  split; [exact Hlen|]. split; [exact Hget|].
  rewrite Hget, length_lastn. reflexivity.
Qed.

(** ** C2: the message counter *)

Lemma check_category_total (c : category) (t : instant) (st : system_status_t) :
  total_messages (check_category c t st) = total_messages st.
Proof.
  unfold check_category.
  destruct (last_seen_of c st); [destruct (stale t i)|]; destruct c; reflexivity.
Qed.

Lemma total_exec (o : op) (s : store) :
  total_messages (system_status (exec o s))
  = total_messages (system_status s) + Z.of_nat (accepts o).
Proof.
  destruct o as [c now1 now2 payload| t | c | c arg | |]; simpl;
    try (rewrite Z.add_0_r; reflexivity).
  - unfold receive_data, stamped.
    destruct (setitem payload "server_timestamp" (JStr (isoformat now1)))
      as [data|e]; simpl; [|lia].
    destruct (log_received c data); destruct c; simpl; reflexivity.
  - unfold check_device_status. simpl.
    rewrite !check_category_total. lia.
Qed.

Lemma total_run (ops : list op) :
  forall s : store,
  total_messages (system_status (run s ops))
  = total_messages (system_status s) + Z.of_nat (n_accepted ops).
Proof.
  induction ops as [|o rest IH]; intros s; simpl.
  - lia.
  - rewrite IH, total_exec. lia.
Qed.

(** Claim C2.  After any trace of calls from the initial store (ingests
    into any categories in any order, sweeps, reads), [total_messages] is
    exactly the number of records accepted by the trace; every call raises
    it by exactly the number of records it accepts (one per accepted
    ingest, zero for sweeps, reads and rejected bodies), so it never
    decreases. *)
Theorem total_messages_counts_accepted (ops : list op) :
  total_messages (system_status (run initial_store ops))
  = Z.of_nat (n_accepted ops) /\
  (forall (o : op) (s : store),
     total_messages (system_status (exec o s))
     = total_messages (system_status s) + Z.of_nat (accepts o)).
Proof.
  split.
  - rewrite total_run. reflexivity.
  - exact total_exec.
Qed.

(** ** Sweep and liveness *)

Ltac destruct_ifs :=
  repeat (cbn; match goal with
  | |- context [if ?b then _ else _] => destruct b eqn:?
  | |- context [match ?o with Some _ => _ | None => _ end] => destruct o eqn:?
  end).

Lemma online_check_category (c c' : category) (t : instant) (st : system_status_t) :
  online_of c' (check_category c t st)
  = if category_eqb c c' then swept_online c t st else online_of c' st.
Proof.
  unfold check_category, swept_online.
  destruct (last_seen_of c st); [destruct (stale t i)|]; destruct c, c'; reflexivity.
Qed.

Lemma last_seen_check_category (c c' : category) (t : instant) (st : system_status_t) :
  last_seen_of c' (check_category c t st) = last_seen_of c' st.
Proof.
  unfold check_category.
  destruct (last_seen_of c st); [destruct (stale t i)|]; destruct c, c'; reflexivity.
Qed.

Lemma swept_online_check_category (c c' : category) (t : instant)
  (st : system_status_t) :
  category_eqb c c' = false ->
  swept_online c' t (check_category c t st) = swept_online c' t st.
Proof.
  intros Hne. unfold swept_online at 1.
  rewrite last_seen_check_category, online_check_category, Hne. reflexivity.
Qed.

Lemma check_device_status_with (t : instant) (s : store) :
  check_device_status t s = with_status s (sweep_status t (system_status s)).
Proof. reflexivity. Qed.

Lemma online_sweep_status (c : category) (t : instant) (st : system_status_t) :
  online_of c (sweep_status t st) = swept_online c t st.
Proof.
  unfold sweep_status.
  destruct c; rewrite !online_check_category; simpl;
    rewrite ?swept_online_check_category by reflexivity; reflexivity.
Qed.

Lemma last_seen_sweep_status (c : category) (t : instant) (st : system_status_t) :
  last_seen_of c (sweep_status t st) = last_seen_of c st.
Proof. unfold sweep_status. rewrite !last_seen_check_category. reflexivity. Qed.

Lemma total_sweep_status (t : instant) (st : system_status_t) :
  total_messages (sweep_status t st) = total_messages st.
Proof. unfold sweep_status. rewrite !check_category_total. reflexivity. Qed.

Lemma status_ext (a b : system_status_t) :
  (forall c, online_of c a = online_of c b) ->
  (forall c, last_seen_of c a = last_seen_of c b) ->
  total_messages a = total_messages b -> a = b.
Proof.
  intros Ho Hl Ht.
  destruct a, b; simpl in *.
  pose proof (Ho vessel) as Hv; pose proof (Ho buoy) as Hb;
    pose proof (Ho base_station) as Hs.
  pose proof (Hl vessel) as Lv; pose proof (Hl buoy) as Lb;
    pose proof (Hl base_station) as Ls.
  simpl in *. subst. reflexivity.
Qed.

Lemma online_check_device_status (c : category) (t : instant) (s : store) :
  online_of c (system_status (check_device_status t s))
  = swept_online c t (system_status s).
Proof. apply online_sweep_status. Qed.

Lemma last_seen_check_device_status (c : category) (t : instant) (s : store) :
  last_seen_of c (system_status (check_device_status t s))
  = last_seen_of c (system_status s).
Proof. apply last_seen_sweep_status. Qed.

Lemma sweep_status_idempotent (t : instant) (st : system_status_t) :
  sweep_status t (sweep_status t st) = sweep_status t st.
Proof.
  apply status_ext.
  - intros c. rewrite !online_sweep_status. unfold swept_online.
    rewrite last_seen_sweep_status, online_sweep_status. unfold swept_online.
    destruct (last_seen_of c st); [destruct (stale t i)|]; reflexivity.
  - intros c. rewrite !last_seen_sweep_status. reflexivity.
  - rewrite !total_sweep_status. reflexivity.
Qed.

Lemma online_ingest (c : category) (now1 now2 : instant) (payload : json)
  (s : store) (d : json) :
  stamped now1 payload = Some d ->
  online_of c (system_status (exec (Ingest c now1 now2 payload) s)) = true.
Proof.
  unfold stamped. simpl. unfold receive_data.
  destruct (setitem payload "server_timestamp" (JStr (isoformat now1)))
    as [data|e]; [|discriminate].
  intros _. destruct (log_received c data); destruct c; reflexivity.
Qed.

(** Claim C3.  For a category with [last_seen = T] and [online = true], a
    sweep at [T + 31s] turns it offline, a sweep at [T + 29s] leaves it
    online, and any later ingest of a dict body into it sets it online
    again directly, whatever the store it finds.  The threshold is strict:
    a sweep at any [t] leaves the category online exactly when
    [t - T <= 30s], so silence of exactly 30 seconds (sweep at [T + 30s])
    keeps it online and [T + 30s + 1us] already turns it offline. *)
Theorem liveness_transition (s : store) (c : category) (T : instant)
  (Hseen : last_seen_of c (system_status s) = Some T)
  (Hon : online_of c (system_status s) = true) :
  online_of c (system_status (check_device_status (T + 31000000) s)) = false /\
  online_of c (system_status (check_device_status (T + 29000000) s)) = true /\
  (forall (now1 now2 : instant) (payload d : json) (s' : store),
     stamped now1 payload = Some d ->
     online_of c (system_status (exec (Ingest c now1 now2 payload) s')) = true) /\
  (forall t : instant,
     online_of c (system_status (check_device_status t s)) = (t - T <=? 30000000)) /\
  online_of c (system_status (check_device_status (T + 30000000) s)) = true /\
  online_of c (system_status (check_device_status (T + 30000001) s)) = false.
Proof.
  assert (Hall : forall t : instant,
     online_of c (system_status (check_device_status t s)) = (t - T <=? 30000000)).
  { intros t. rewrite online_check_device_status. unfold swept_online.
    rewrite Hseen. unfold stale. rewrite Hon, Z.leb_antisym.
    destruct (30000000 <? t - T); reflexivity. }
  rewrite !Hall.
  replace (T + 31000000 - T) with 31000000 by lia.
  replace (T + 29000000 - T) with 29000000 by lia.
  replace (T + 30000000 - T) with 30000000 by lia.
  replace (T + 30000001 - T) with 30000001 by lia.
  split; [reflexivity|]. split; [reflexivity|]. split.
  - intros now1 now2 payload d s' Hd. exact (online_ingest c now1 now2 payload s' d Hd).
  - split; [exact Hall|]. split; reflexivity.
Qed.

Lemma liveness_transition_witness :
  last_seen_of vessel (system_status vessel_seen_store) = Some 5 /\
  online_of vessel (system_status vessel_seen_store) = true /\
  online_of vessel (system_status (check_device_status (5 + 31000000) vessel_seen_store))
  = false.
Proof.
  assert (H1 : last_seen_of vessel (system_status vessel_seen_store) = Some 5)
    by reflexivity.
  assert (H2 : online_of vessel (system_status vessel_seen_store) = true)
    by reflexivity.
  split; [exact H1|]. split; [exact H2|].
  exact (proj1 (liveness_transition vessel_seen_store vessel 5 H1 H2)).
Defined.

(** Claim C8.  A sweep at [t] is idempotent; for each category it turns
    [online] off exactly when [last_seen] is set and [t - last_seen > 30s]
    and otherwise leaves it as it was (so it does nothing to a category
    already offline or never seen); it changes no [last_seen], no history,
    no latest record and not the counter. *)
Theorem sweep_idempotent_and_exact (t : instant) (s : store) :
  check_device_status t (check_device_status t s) = check_device_status t s /\
  (forall c : category,
     online_of c (system_status (check_device_status t s))
     = match last_seen_of c (system_status s) with
       | Some last_seen =>
           if t - last_seen >? 30000000 then false
           else online_of c (system_status s)
       | None => online_of c (system_status s)
       end /\
     ((online_of c (system_status s) = false
       \/ last_seen_of c (system_status s) = None) ->
      online_of c (system_status (check_device_status t s))
      = online_of c (system_status s)) /\
     last_seen_of c (system_status (check_device_status t s))
     = last_seen_of c (system_status s) /\
     history_of c (check_device_status t s) = history_of c s /\
     current_of c (check_device_status t s) = current_of c s) /\
  total_messages (system_status (check_device_status t s))
  = total_messages (system_status s).
Proof.
  split; [|split].
  - rewrite !check_device_status_with. simpl.
    rewrite sweep_status_idempotent. reflexivity.
  - intros c. rewrite online_check_device_status, last_seen_check_device_status.
    unfold swept_online, stale.
    split; [|split; [|split; [reflexivity|split]]].
    + destruct (last_seen_of c (system_status s)) as [ls|]; [|reflexivity].
      rewrite Z.gtb_ltb. reflexivity.
    + intros [Hoff|Hnone].
      * rewrite Hoff. destruct_ifs; reflexivity.
      * rewrite Hnone. reflexivity.
    + destruct c; reflexivity.
    + destruct c; reflexivity.
  - apply total_sweep_status.
Qed.

(** ** Frame of an ingest *)

(** Claim C10.  An ingest into category [c] leaves every other category's
    history, latest record, online flag and [last_seen] as they were; only
    [c]'s fields and the shared counter can change. *)
Theorem ingest_frame (c c' : category) (Hne : c <> c') (now1 now2 : instant)
  (payload : json) (s : store) :
  let s' := exec (Ingest c now1 now2 payload) s in
  history_of c' s' = history_of c' s /\
  current_of c' s' = current_of c' s /\
  online_of c' (system_status s') = online_of c' (system_status s) /\
  last_seen_of c' (system_status s') = last_seen_of c' (system_status s).
Proof.
  cbv zeta. simpl exec. unfold receive_data.
  destruct (setitem payload "server_timestamp" (JStr (isoformat now1)))
    as [data|e]; [destruct (log_received c data)|];
    destruct c, c'; try congruence; repeat split.
Qed.

Lemma ingest_frame_witness :
  vessel <> buoy /\
  history_of buoy (exec (Ingest vessel 1 2 (JObj [])) initial_store)
  = history_of buoy initial_store.
Proof.
  assert (Hne : vessel <> buoy) by discriminate.
  split; [exact Hne|].
  exact (proj1 (ingest_frame vessel buoy Hne 1 2 (JObj []) initial_store)).
Defined.

(** ** Rejection of bodies that are not dicts *)

(** Claim C5.  When the body is not a dict (a string, number, boolean,
    list or null), the handler answers 400 with an error body, the store is
    exactly the store before the call (counter, histories, latest records,
    flags, [last_seen]), and nothing is emitted. *)
Theorem non_mapping_rejected (c : category) (now1 now2 : instant)
  (payload : json) (s : store)
  (Hnm : forall kvs, payload <> JObj kvs) :
  receive_data c now1 now2 payload s = (error_response TypeError, s, []) /\
  status_code (error_response TypeError) = 400 /\
  json_get (body (error_response TypeError)) "status" = JStr "error".
Proof.
  split; [|split; reflexivity].
  unfold receive_data, setitem.
  destruct payload; try reflexivity.
  exfalso. exact (Hnm kvs eq_refl).
Qed.

Lemma non_mapping_rejected_witness :
  (forall kvs, JStr "not-a-mapping" <> JObj kvs) /\
  receive_vessel_data 1 2 (JStr "not-a-mapping") initial_store
  = (error_response TypeError, initial_store, []).
Proof.
  assert (Hnm : forall kvs, JStr "not-a-mapping" <> JObj kvs) by discriminate.
  split; [exact Hnm|].
  exact (proj1 (non_mapping_rejected vessel 1 2 (JStr "not-a-mapping")
                  initial_store Hnm)).
Defined.

(** ** The accepted timestamp *)

Lemma dict_get_setitem (kvs : list (string * json)) (k : string) (v : json) :
  dict_get (dict_setitem kvs k v) k = v.
Proof.
  induction kvs as [|[k' v'] rest IH]; simpl.
  - rewrite String.eqb_refl. reflexivity.
  - destruct (String.eqb k k') eqn:E; simpl; rewrite E; [reflexivity|exact IH].
Qed.

Lemma last_deque_append (l : list json) (x d : json) :
  last (deque_append HISTORY_MAXLEN l x) d = x.
Proof.
  unfold deque_append.
  destruct (Nat.ltb (length l) HISTORY_MAXLEN) eqn:E.
  - apply last_last.
  - destruct l as [|a l]; [discriminate|]. simpl. apply last_last.
Qed.

(** Claim C7, as the code has it.  The handler reads the clock twice: the
    first reading [now1] is stamped into the record as [server_timestamp]
    and echoed back, the second [now2], taken inside the lock, becomes
    [last_seen].  On a 200 answer, the echoed timestamp is the
    [server_timestamp] of the record now latest and last in the history,
    and [last_seen] is the second reading. *)
Theorem accepted_timestamp_is_stamp (c : category) (now1 now2 : instant)
  (payload : json) (s : store) (r : response) (s' : store)
  (ev : list (string * json))
  (Hrun : receive_data c now1 now2 payload s = (r, s', ev))
  (Hok : status_code r = 200) :
  json_get (body r) "timestamp" = JStr (isoformat now1) /\
  json_get (current_of c s') "server_timestamp" = JStr (isoformat now1) /\
  last (history_of c s') JNull = current_of c s' /\
  last_seen_of c (system_status s') = Some now2.
Proof.
  unfold receive_data in Hrun.
  destruct payload as [| | | | |kvs]; simpl in Hrun;
    try (injection Hrun as <- _ _; discriminate).
  assert (Hts : json_get (JObj (dict_setitem kvs "server_timestamp"
                                   (JStr (isoformat now1))))
                  "server_timestamp" = JStr (isoformat now1))
    by apply dict_get_setitem.
  destruct (log_received c _);
    injection Hrun as <- <- _; [discriminate|].
  simpl. split; [exact Hts|].
  destruct c; simpl; (split; [exact Hts|]);
    (split; [apply last_deque_append|reflexivity]).
Qed.

Lemma accepted_timestamp_is_stamp_witness :
  status_code (fst (fst (receive_vessel_data 5 6 sample_vessel_record
                             initial_store))) = 200 /\
  vessel_last_seen
    (system_status (snd (fst (receive_vessel_data 5 6 sample_vessel_record
                                initial_store)))) = Some 6.
Proof.
  split; [reflexivity|].
  exact (proj2 (proj2 (proj2 (accepted_timestamp_is_stamp vessel 5 6
    sample_vessel_record initial_store _ _ _ eq_refl eq_refl)))).
Defined.

(** Claim C7 as stated fails: with clock readings 5 then 6, the answer
    echoes the stamp 5 while [last_seen] is 6. *)
Lemma last_seen_differs_from_stamp :
  let '(r, s, _) := receive_vessel_data 5 6 sample_vessel_record initial_store in
  status_code r = 200 /\
  json_get (body r) "timestamp" = JStr (isoformat 5) /\
  vessel_last_seen (system_status s) <> Some 5.
Proof. simpl. split; [reflexivity|]. split; [reflexivity|]. discriminate. Qed.

(** ** Logging after the commit *)

(** Claim C4 fails on the vessel handler: a dict body without [lat] and
    [lon] is stored, counted and broadcast, and then the log line's
    [f"{None:.4f}"] raises, so the caller gets a 400 error. *)
Theorem vessel_ingest_without_position_fails_after_commit :
  let '(r, s, ev) :=
    receive_vessel_data 5 6 (JObj [("id", JStr "V1")]) initial_store in
  status_code r = 400 /\
  json_get (body r) "status" = JStr "error" /\
  total_messages (system_status s) = 1 /\
  length (vessel_data_history s) = 1%nat /\
  vessel_online (system_status s) = true /\
  ev = [("vessel_update",
         JObj [("id", JStr "V1"); ("server_timestamp", JStr (isoformat 5))])].
Proof. simpl. repeat split. Qed.

(** ** The history limit *)




Module ConcurrentFacts.
Import Concurrent.

Lemma nth_error_upd (ts : list ithread) (i j : nat) (x th : ithread) :
  nth_error ts i = Some th ->
  nth_error (upd ts i x) j = if Nat.eqb j i then Some x else nth_error ts j.
Proof.
  revert i j. induction ts as [|y ts IH]; intros i j Hi.
  - destruct i; discriminate.
  - destruct i as [|i], j as [|j]; simpl in *; try reflexivity.
    rewrite (IH i j Hi). reflexivity.
Qed.

Lemma category_eqb_true (a b : category) : category_eqb a b = true <-> a = b.
Proof. destruct a, b; simpl; split; congruence. Qed.

Lemma current_append (c c0 : category) (d : json) (s : store) :
  current_of c (append_history c0 d s) = current_of c s.
Proof. destruct c, c0; reflexivity. Qed.

Lemma status_append (c0 : category) (d : json) (s : store) :
  system_status (append_history c0 d s) = system_status s.
Proof. destruct c0; reflexivity. Qed.

Lemma current_set (c c0 : category) (d : json) (s : store) :
  current_of c (set_current c0 d s)
  = if category_eqb c0 c then d else current_of c s.
Proof. destruct c, c0; reflexivity. Qed.

Lemma status_set_current (c0 : category) (d : json) (s : store) :
  system_status (set_current c0 d s) = system_status s.
Proof. destruct c0; reflexivity. Qed.

Lemma current_map_status (c : category) (f : system_status_t -> system_status_t)
  (s : store) : current_of c (map_status f s) = current_of c s.
Proof. destruct c; reflexivity. Qed.

Lemma last_seen_set_online (c c0 : category) (b : bool) (st : system_status_t) :
  last_seen_of c (set_online c0 b st) = last_seen_of c st.
Proof. destruct c, c0; reflexivity. Qed.

Lemma last_seen_set_last_seen (c c0 : category) (t : instant) (st : system_status_t) :
  last_seen_of c (set_last_seen c0 t st)
  = if category_eqb c0 c then Some t else last_seen_of c st.
Proof. destruct c, c0; reflexivity. Qed.

Lemma last_seen_incr (c : category) (st : system_status_t) :
  last_seen_of c (incr_total st) = last_seen_of c st.
Proof. destruct c; reflexivity. Qed.

Lemma last_seen_set_total (c : category) (n : Z) (st : system_status_t) :
  last_seen_of c (set_total n st) = last_seen_of c st.
Proof. destruct c; reflexivity. Qed.

(** A category whose latest record and [last_seen] a step leaves alone
    stays consistent or busy. *)
Lemma cat_frame (cs : cstate) (i : nat) (th th' : ithread) (s' : store)
  (l' : option holder) (c : category) :
  nth_error (threads cs) i = Some th -> keeps th th' ->
  current_of c s' = current_of c (cst cs) ->
  last_seen_of c (system_status s') = last_seen_of c (system_status (cst cs)) ->
  (t_cat th = c -> (t_pc th = IOnline \/ t_pc th = ILastSeen) ->
   t_pc th' = IOnline \/ t_pc th' = ILastSeen) ->
  cat_consistent cs c \/ busy cs c ->
  cat_consistent (next cs i th' s' l') c \/ busy (next cs i th' s' l') c.
Proof.
  intros Hi [Hcat Hkeep] Hcur Hseen Hbusy [Hc|Hb].
  - left. destruct Hc as [[H1 H2]|(k & thk & Hk & Hkc & Hkp & Hkr & Hks)].
    + left. unfold next; simpl. rewrite Hcur, Hseen. split; assumption.
    + right. unfold next; simpl. rewrite Hcur, Hseen.
      destruct (Nat.eqb_spec k i) as [->|Hne].
      * rewrite Hi in Hk. injection Hk as <-.
        destruct (Hkeep Hkp) as (Hr & Hs & Hp).
        exists i, th'. rewrite (nth_error_upd _ _ _ _ _ Hi), Nat.eqb_refl.
        repeat split; congruence.
      * exists k, thk. rewrite (nth_error_upd _ _ _ _ _ Hi).
        apply Nat.eqb_neq in Hne. rewrite Hne. repeat split; assumption.
  - right. destruct Hb as (k & thk & Hk & Hkc & Hkp).
    unfold busy, next; simpl.
    destruct (Nat.eqb_spec k i) as [->|Hne].
    + rewrite Hi in Hk. injection Hk as <-.
      exists i, th'. rewrite (nth_error_upd _ _ _ _ _ Hi), Nat.eqb_refl.
      repeat split; [congruence|]. apply Hbusy; assumption.
    + exists k, thk. rewrite (nth_error_upd _ _ _ _ _ Hi).
      apply Nat.eqb_neq in Hne. rewrite Hne. repeat split; assumption.
Qed.

Lemma inv_thread_step (cs : cstate) (i : nat) (th th' : ithread) (s' : store)
  (l' : option holder) :
  Inv cs -> nth_error (threads cs) i = Some th ->
  t_cat th' = t_cat th ->
  (in_cs (t_pc th') = true -> l' = Some (HIngest i)) ->
  (forall j thj, j <> i -> nth_error (threads cs) j = Some thj ->
     in_cs (t_pc thj) = true -> l' = lock cs) ->
  ((t_pc th' = IOnline \/ t_pc th' = ILastSeen) ->
     current_of (t_cat th) s' = t_rec th') ->
  (forall j thj, j <> i -> nth_error (threads cs) j = Some thj ->
     (t_pc thj = IOnline \/ t_pc thj = ILastSeen) ->
     current_of (t_cat thj) s' = current_of (t_cat thj) (cst cs)) ->
  (forall c, cat_consistent (next cs i th' s' l') c \/ busy (next cs i th' s' l') c) ->
  Inv (next cs i th' s' l').
Proof.
  intros [I1 [I4 _]] Hi Hcat Hl1 Hl2 Hc1 Hc2 Hcats.
  split; [|split; [|exact Hcats]]; unfold next; simpl;
    intros j thj Hj; rewrite (nth_error_upd _ _ _ _ _ Hi) in Hj;
    destruct (Nat.eqb_spec j i) as [->|Hne].
  - injection Hj as <-. exact Hl1.
  - intros Hin. rewrite (Hl2 j thj Hne Hj Hin). exact (I1 j thj Hj Hin).
  - injection Hj as <-. rewrite Hcat. exact Hc1.
  - intros Hp. rewrite (Hc2 j thj Hne Hj Hp). exact (I4 j thj Hj Hp).
Qed.

(** Two threads inside the critical section are the same thread. *)
Lemma cs_unique (cs : cstate) (i j : nat) (th thj : ithread) :
  Inv cs -> nth_error (threads cs) i = Some th -> in_cs (t_pc th) = true ->
  nth_error (threads cs) j = Some thj -> in_cs (t_pc thj) = true -> j = i.
Proof.
  intros [I1 _] Hi Hin Hj Hjn.
  pose proof (I1 i th Hi Hin) as A. pose proof (I1 j thj Hj Hjn) as B.
  rewrite A in B. congruence.
Qed.

Lemma mid_update_in_cs (p : ipc) : p = IOnline \/ p = ILastSeen -> in_cs p = true.
Proof. intros [->| ->]; reflexivity. Qed.

Ltac pc_false Hp :=
  simpl; rewrite ?Hp; first [discriminate | intros [?|?]; discriminate
                            | intros _ [?|?]; discriminate].

Lemma inv_step (cs cs' : cstate) : Inv cs -> step cs cs' -> Inv cs'.
Proof.
  intros HI Hstep. pose proof HI as [I1 [I4 I2]].
  destruct Hstep as
    [cs c payload
    | cs i th now1 d Hi Hp Hd | cs i th now1 e Hi Hp He
    | cs i th Hi Hp Hl | cs i th Hi Hp | cs i th Hi Hp | cs i th Hi Hp
    | cs i th now2 Hi Hp | cs i th Hi Hp | cs i th v Hi Hp | cs i th Hi Hp
    | cs i th Hi Hp | cs Hl | cs Hl].
  - (* a new request *)
    set (nt := {| t_cat := c; t_rec := payload; t_seen := 0; t_pc := IStart |}).
    assert (Hold : forall j thj, nth_error (threads cs ++ [nt]) j = Some thj ->
              nth_error (threads cs) j = Some thj \/ thj = nt).
    { intros j thj Hj. destruct (Nat.lt_ge_cases j (length (threads cs))) as [Hlt|Hge].
      - left. rewrite nth_error_app1 in Hj by exact Hlt. exact Hj.
      - right. rewrite nth_error_app2 in Hj by exact Hge.
        destruct (j - length (threads cs))%nat as [|k]; simpl in Hj;
          [congruence | destruct k; discriminate]. }
    split; [|split]; simpl.
    + intros j thj Hj Hin. destruct (Hold j thj Hj) as [Ho| ->];
        [exact (I1 j thj Ho Hin) | discriminate].
    + intros j thj Hj Hm. destruct (Hold j thj Hj) as [Ho| ->];
        [exact (I4 j thj Ho Hm) | destruct Hm; discriminate].
    + intros c'. destruct (I2 c') as [Hc|Hb].
      * left. destruct Hc as [Hc|(k & thk & Hk & R)]; [left; exact Hc|].
        right. exists k, thk. split; [|exact R].
        simpl. rewrite nth_error_app1; [exact Hk|]. apply nth_error_Some. congruence.
      * right. destruct Hb as (k & thk & Hk & R). exists k, thk. split; [|exact R].
        simpl. rewrite nth_error_app1; [exact Hk|]. apply nth_error_Some. congruence.
  - (* the stamp on the handler's own dict *)
    apply (inv_thread_step cs i th); try assumption; try reflexivity.
    + pc_false Hp.
    + pc_false Hp.
    + intros c. apply (cat_frame cs i th); try assumption; try reflexivity.
      * split; [reflexivity|]. rewrite Hp. discriminate.
      * rewrite Hp. intros _ [?|?]; discriminate.
      * exact (I2 c).
  - (* the stamp raises *)
    apply (inv_thread_step cs i th); try assumption; try reflexivity.
    + pc_false Hp.
    + pc_false Hp.
    + intros c. apply (cat_frame cs i th); try assumption; try reflexivity.
      * split; [reflexivity|]. rewrite Hp. discriminate.
      * rewrite Hp. intros _ [?|?]; discriminate.
      * exact (I2 c).
  - (* with data_lock: (acquire) *)
    apply (inv_thread_step cs i th); try assumption; try reflexivity.
    + intros j thj _ Hj Hin. rewrite (I1 j thj Hj Hin) in Hl. discriminate.
    + pc_false Hp.
    + intros c. apply (cat_frame cs i th); try assumption; try reflexivity.
      * split; [reflexivity|]. rewrite Hp. discriminate.
      * rewrite Hp. intros _ [?|?]; discriminate.
      * exact (I2 c).
  - (* history append *)
    apply (inv_thread_step cs i th); try assumption; try reflexivity.
    + intros _. apply (I1 i th Hi). rewrite Hp. reflexivity.
    + pc_false Hp.
    + intros j thj _ _ _. apply current_append.
    + intros c. apply (cat_frame cs i th); try assumption.
      * split; [reflexivity|]. rewrite Hp. discriminate.
      * apply current_append.
      * rewrite status_append. reflexivity.
      * rewrite Hp. intros _ [?|?]; discriminate.
      * exact (I2 c).
  - (* current_c_data = data *)
    apply (inv_thread_step cs i th); try assumption; try reflexivity.
    + intros _. apply (I1 i th Hi). rewrite Hp. reflexivity.
    + intros _. simpl. rewrite current_set.
      replace (category_eqb (t_cat th) (t_cat th)) with true
        by (symmetry; apply category_eqb_true; reflexivity).
      reflexivity.
    + intros j thj Hne Hj Hm. exfalso. apply Hne.
      apply (cs_unique cs i j th thj HI Hi); [rewrite Hp; reflexivity | exact Hj |].
      apply mid_update_in_cs. exact Hm.
    + intros c. destruct (category_eqb (t_cat th) c) eqn:Ec.
      * apply category_eqb_true in Ec. right. exists i, (with_pc th IOnline).
        unfold next; simpl. rewrite (nth_error_upd _ _ _ _ _ Hi), Nat.eqb_refl.
        split; [reflexivity|]. split; [exact Ec|]. left; reflexivity.
      * apply (cat_frame cs i th); try assumption.
        -- split; [reflexivity|]. rewrite Hp. discriminate.
        -- rewrite current_set, Ec. reflexivity.
        -- rewrite status_set_current. reflexivity.
        -- intros Hc. apply category_eqb_true in Hc. congruence.
        -- exact (I2 c).
  - (* c_online = True *)
    apply (inv_thread_step cs i th); try assumption; try reflexivity.
    + intros _. apply (I1 i th Hi). rewrite Hp. reflexivity.
    + intros _. simpl. rewrite current_map_status. apply (I4 i th Hi). left; exact Hp.
    + intros c. apply (cat_frame cs i th); try assumption.
      * split; [reflexivity|]. rewrite Hp. discriminate.
      * apply current_map_status.
      * unfold map_status. simpl. apply last_seen_set_online.
      * intros _ _. right. reflexivity.
      * exact (I2 c).
  - (* c_last_seen = now *)
    apply (inv_thread_step cs i th); try assumption; try reflexivity.
    + intros _. apply (I1 i th Hi). rewrite Hp. reflexivity.
    + pc_false Hp.
    + intros c. destruct (category_eqb (t_cat th) c) eqn:Ec.
      * apply category_eqb_true in Ec. left. right.
        exists i, {| t_cat := t_cat th; t_rec := t_rec th; t_seen := now2;
                     t_pc := ICount |}.
        unfold next; simpl. rewrite (nth_error_upd _ _ _ _ _ Hi), Nat.eqb_refl.
        split; [reflexivity|]. split; [exact Ec|]. split; [reflexivity|].
        split.
        -- rewrite current_map_status, <- Ec. apply (I4 i th Hi). right; exact Hp.
        -- unfold map_status. simpl. rewrite last_seen_set_last_seen.
           rewrite <- Ec.
           replace (category_eqb (t_cat th) (t_cat th)) with true
             by (symmetry; apply category_eqb_true; reflexivity).
           reflexivity.
      * apply (cat_frame cs i th); try assumption.
        -- split; [reflexivity|]. rewrite Hp. discriminate.
        -- apply current_map_status.
        -- unfold map_status. simpl. rewrite last_seen_set_last_seen, Ec. reflexivity.
        -- intros Hc. apply category_eqb_true in Hc. congruence.
        -- exact (I2 c).
  - (* total_messages += 1: the read *)
    apply (inv_thread_step cs i th); try assumption; try reflexivity.
    + intros _. apply (I1 i th Hi). rewrite Hp. reflexivity.
    + pc_false Hp.
    + intros c. apply (cat_frame cs i th); try assumption; try reflexivity.
      * split; [reflexivity|]. intros _. repeat split.
      * rewrite Hp. intros _ [?|?]; discriminate.
      * exact (I2 c).
  - (* total_messages += 1: the store *)
    apply (inv_thread_step cs i th); try assumption; try reflexivity.
    + intros _. apply (I1 i th Hi). rewrite Hp. reflexivity.
    + pc_false Hp.
    + intros c. apply (cat_frame cs i th); try assumption.
      * split; [reflexivity|]. intros _. repeat split.
      * apply current_map_status.
      * unfold map_status. simpl. apply last_seen_set_total.
      * rewrite Hp. intros _ [?|?]; discriminate.
      * exact (I2 c).
  - (* end of with data_lock: (release) *)
    apply (inv_thread_step cs i th); try assumption; try reflexivity.
    + pc_false Hp.
    + intros j thj Hne Hj Hin. exfalso. apply Hne.
      apply (cs_unique cs i j th thj HI Hi); [rewrite Hp; reflexivity | exact Hj | exact Hin].
    + pc_false Hp.
    + intros c. apply (cat_frame cs i th); try assumption; try reflexivity.
      * split; [reflexivity|]. intros _. repeat split.
      * rewrite Hp. intros _ [?|?]; discriminate.
      * exact (I2 c).
  - (* broadcast and log line *)
    apply (inv_thread_step cs i th); try assumption; try reflexivity.
    + pc_false Hp.
    + pc_false Hp.
    + intros c. apply (cat_frame cs i th); try assumption; try reflexivity.
      * split; [reflexivity|]. intros _. repeat split.
      * rewrite Hp. intros _ [?|?]; discriminate.
      * exact (I2 c).
  - (* a reader takes the lock *)
    split; [|split]; simpl.
    + intros j thj Hj Hin. rewrite (I1 j thj Hj Hin) in Hl. discriminate.
    + exact I4.
    + exact I2.
  - (* the reader releases it *)
    split; [|split]; simpl.
    + intros j thj Hj Hin. rewrite (I1 j thj Hj Hin) in Hl. discriminate.
    + exact I4.
    + exact I2.
Qed.

Lemma inv_init : Inv init.
Proof.
  split; [|split]; simpl.
  - intros [|j] th H; discriminate.
  - intros [|j] th H; discriminate.
  - intros c. left. left. destruct c; split; reflexivity.
Qed.

Lemma inv_reachable (cs : cstate) : reachable cs -> Inv cs.
Proof.
  induction 1 as [|cs cs' _ IH Hs].
  - exact inv_init.
  - exact (inv_step cs cs' IH Hs).
Qed.

(** Claim C9.  In every state reachable by any interleaving of ingest
    threads (statement by statement) and readers, whenever a reader holds
    [data_lock] (which is when [get_all_latest], [get_system_status] and the
    other reads take their snapshot), every category is consistent: its
    latest record is the whole record of a single ingest that has finished
    both writes, and its [last_seen] is that same ingest's clock reading, or
    nothing has been accepted into it yet. *)
Theorem reader_sees_no_torn_update (cs : cstate) (Hr : reachable cs)
  (Hl : lock cs = Some HReader) (c : category) :
  cat_consistent cs c.
Proof.
  destruct (inv_reachable cs Hr) as [I1 [_ I2]].
  destruct (I2 c) as [Hc|(j & thj & Hj & _ & Hm)]; [exact Hc|].
  rewrite (I1 j thj Hj (mid_update_in_cs _ Hm)) in Hl. discriminate.
Qed.

Lemma reader_sees_no_torn_update_witness :
  reachable after_one_vessel_ingest /\
  lock after_one_vessel_ingest = Some HReader /\
  cat_consistent after_one_vessel_ingest vessel.
Proof.
  pose proof (reach_step _ _ reach_init
                (StSpawn init vessel (JObj [("id", JStr "V1")]))) as R1.
  match type of R1 with reachable ?x => pose proof (reach_step _ _ R1 (StStamp x 0 _ 5 _ eq_refl eq_refl eq_refl)) as R2 end.
  match type of R2 with reachable ?x => pose proof (reach_step _ _ R2 (StAcquire x 0 _ eq_refl eq_refl eq_refl)) as R3 end.
  match type of R3 with reachable ?x => pose proof (reach_step _ _ R3 (StAppend x 0 _ eq_refl eq_refl)) as R4 end.
  match type of R4 with reachable ?x => pose proof (reach_step _ _ R4 (StLatest x 0 _ eq_refl eq_refl)) as R5 end.
  match type of R5 with reachable ?x => pose proof (reach_step _ _ R5 (StOnline x 0 _ eq_refl eq_refl)) as R6 end.
  match type of R6 with reachable ?x => pose proof (reach_step _ _ R6 (StLastSeen x 0 _ 6 eq_refl eq_refl)) as R7 end.
  match type of R7 with reachable ?x => pose proof (reach_step _ _ R7 (StCount x 0 _ eq_refl eq_refl)) as R8 end.
  match type of R8 with reachable ?x => pose proof (reach_step _ _ R8 (StCountStore x 0 _ 0 eq_refl eq_refl)) as R8' end.
  match type of R8' with reachable ?x => pose proof (reach_step _ _ R8' (StRelease x 0 _ eq_refl eq_refl)) as R9 end.
  match type of R9 with reachable ?x => pose proof (reach_step _ _ R9 (StReaderAcquire x eq_refl)) as R10 end.
  assert (Hr : reachable after_one_vessel_ingest) by exact R10.
  split; [exact Hr|]. split; [reflexivity|].
  exact (reader_sees_no_torn_update _ Hr eq_refl vessel).
Defined.

End ConcurrentFacts.

(** ** Further properties of the handlers, reads and sweep *)
Module Extras.

Lemma dict_get_setitem_other (kvs : list (string * json)) (k k' : string) (v : json) :
  String.eqb k' k = false ->
  dict_get (dict_setitem kvs k v) k' = dict_get kvs k'.
Proof.
  intros Hne. induction kvs as [|[k1 v1] rest IH]; simpl.
  - rewrite Hne. reflexivity.
  - destruct (String.eqb k k1) eqn:E; simpl.
    + apply String.eqb_eq in E. subst k1. rewrite Hne. reflexivity.
    + destruct (String.eqb k' k1); [reflexivity|exact IH].
Qed.

Lemma keys_setitem (kvs : list (string * json)) (k : string) (v : json) :
  map fst (dict_setitem kvs k v)
  = if existsb (String.eqb k) (map fst kvs) then map fst kvs
    else map fst kvs ++ [k].
Proof.
  induction kvs as [|[k1 v1] rest IH]; simpl; [reflexivity|].
  destruct (String.eqb k k1); simpl; [reflexivity|].
  rewrite IH. destruct (existsb (String.eqb k) (map fst rest)); reflexivity.
Qed.

Lemma exec_ingest (c : category) (now1 now2 : instant) (payload : json) (s : store) :
  exec (Ingest c now1 now2 payload) s
  = match stamped now1 payload with
    | Some d => critical_section c d now2 s
    | None => s
    end.
Proof.
  simpl. unfold receive_data, stamped.
  destruct (setitem payload "server_timestamp" (JStr (isoformat now1)));
    [destruct (log_received c j)|]; reflexivity.
Qed.

Lemma current_critical (c c0 : category) (d : json) (t : instant) (s : store) :
  current_of c (critical_section c0 d t s)
  = if category_eqb c0 c then d else current_of c s.
Proof. destruct c, c0; reflexivity. Qed.

Lemma last_seen_critical (c c0 : category) (d : json) (t : instant) (s : store) :
  last_seen_of c (system_status (critical_section c0 d t s))
  = if category_eqb c0 c then Some t else last_seen_of c (system_status s).
Proof. destruct c, c0; reflexivity. Qed.

Lemma online_critical (c c0 : category) (d : json) (t : instant) (s : store) :
  online_of c (system_status (critical_section c0 d t s))
  = if category_eqb c0 c then true else online_of c (system_status s).
Proof. destruct c, c0; reflexivity. Qed.

Lemma last_app_default {A : Type} (l1 l2 : list A) (d : A) :
  last (l1 ++ l2) d = last l2 (last l1 d).
Proof.
  destruct l2 as [|x l2] using rev_ind.
  - rewrite app_nil_r. reflexivity.
  - rewrite app_assoc, !last_last. reflexivity.
Qed.

Lemma accepted_ingests_cons (c : category) (o : op) (rest : list op) :
  accepted_ingests c (o :: rest) = accepted_ingests c [o] ++ accepted_ingests c rest.
Proof. destruct o; simpl; try reflexivity. rewrite app_nil_r. reflexivity. Qed.

Lemma current_exec (c : category) (o : op) (s : store) :
  current_of c (exec o s)
  = last (map fst (accepted_ingests c [o])) (current_of c s).
Proof.
  destruct o as [c0 now1 now2 payload| t | c0 | c0 arg | |];
    try (destruct c; reflexivity).
  rewrite exec_ingest. simpl.
  destruct (stamped now1 payload); destruct c, c0; reflexivity.
Qed.

Lemma last_seen_exec (c : category) (o : op) (s : store) :
  last_seen_of c (system_status (exec o s))
  = last (map (fun p => Some (snd p)) (accepted_ingests c [o]))
         (last_seen_of c (system_status s)).
Proof.
  destruct o as [c0 now1 now2 payload| t | c0 | c0 arg | |]; try reflexivity.
  - rewrite exec_ingest. simpl.
    destruct (stamped now1 payload); destruct c, c0; reflexivity.
  - apply last_seen_check_device_status.
Qed.

(** Extra X4.  After any trace from the initial store, a category's
    latest record is the record of the last ingest that accepted into it
    ([{}] if none did), and its [last_seen] is that ingest's second clock
    reading (unset if none did); sweeps, reads and rejected bodies change
    neither. *)
Theorem latest_and_last_seen_track_last_accept (ops : list op) (c : category) :
  current_of c (run initial_store ops)
  = last (map fst (accepted_ingests c ops)) (JObj []) /\
  last_seen_of c (system_status (run initial_store ops))
  = last (map (fun p => Some (snd p)) (accepted_ingests c ops)) None.
Proof.
  assert (G : forall s, current_of c (run s ops)
                = last (map fst (accepted_ingests c ops)) (current_of c s) /\
              last_seen_of c (system_status (run s ops))
                = last (map (fun p => Some (snd p)) (accepted_ingests c ops))
                       (last_seen_of c (system_status s))).
  { induction ops as [|o rest IH]; intros s; [split; reflexivity|].
    simpl run. destruct (IH (exec o s)) as [H1 H2].
    rewrite accepted_ingests_cons, !map_app, !last_app_default,
      <- current_exec, <- last_seen_exec.
    split; assumption. }
  destruct (G initial_store) as [H1 H2].
  rewrite H1, H2. destruct c; split; reflexivity.
Qed.

(** Extra X5.  Stamping a dict body sets its [server_timestamp] to the
    server's reading (replacing any value the device sent), leaves every
    other field as sent, and keeps the key order, appending
    [server_timestamp] only when the body lacked it. *)
Theorem stamp_keeps_other_fields (kvs : list (string * json)) (now1 : instant) :
  exists kvs',
    stamped now1 (JObj kvs) = Some (JObj kvs') /\
    dict_get kvs' "server_timestamp" = JStr (isoformat now1) /\
    (forall k, String.eqb k "server_timestamp" = false ->
       dict_get kvs' k = dict_get kvs k) /\
    map fst kvs'
    = (if existsb (String.eqb "server_timestamp") (map fst kvs) then map fst kvs
       else map fst kvs ++ ["server_timestamp"]).
Proof.
  exists (dict_setitem kvs "server_timestamp" (JStr (isoformat now1))).
  split; [reflexivity|]. split; [apply dict_get_setitem|]. split.
  - intros k Hk. apply dict_get_setitem_other. exact Hk.
  - apply keys_setitem.
Qed.




(** Extra X3.  What an ingest does to the store and to the dashboards
    depends only on whether the body is a dict, not on the answer: a dict
    body is committed and broadcast even when the log line then fails, and
    the broadcast record is the very record that is now the category's
    latest and the last entry of its history; any other body changes
    nothing and broadcasts nothing. *)
Theorem ingest_effect_and_broadcast (c : category) (now1 now2 : instant)
  (payload : json) (s : store) :
  let '(_, s', ev) := receive_data c now1 now2 payload s in
  s' = match stamped now1 payload with
       | Some d => critical_section c d now2 s
       | None => s
       end /\
  ev = match stamped now1 payload with
       | Some d => [(event_name c, d)]
       | None => []
       end /\
  Forall (fun e => snd e = current_of c s' /\
                   last (history_of c s') JNull = snd e) ev.
Proof.
  unfold receive_data, stamped.
  destruct (setitem payload "server_timestamp" (JStr (isoformat now1))) as [d|e].
  - assert (Hev : Forall (fun e => snd e = current_of c (critical_section c d now2 s) /\
                   last (history_of c (critical_section c d now2 s)) JNull = snd e)
                  [(event_name c, d)]).
    { constructor; [|constructor]. simpl.
      destruct c; simpl; split; [reflexivity|apply last_deque_append
                                 |reflexivity|apply last_deque_append
                                 |reflexivity|apply last_deque_append]. }
    destruct (log_received c d); repeat split; exact Hev.
  - repeat split. constructor.
Qed.

Lemma online_seen_exec (o : op) (s : store) :
  (forall c, online_of c (system_status s) = false \/
             exists t, last_seen_of c (system_status s) = Some t) ->
  (forall c, online_of c (system_status (exec o s)) = false \/
             exists t, last_seen_of c (system_status (exec o s)) = Some t).
Proof.
  intros Q c.
  destruct o as [c0 now1 now2 payload| t | c0 | c0 arg | |]; try exact (Q c).
  - rewrite exec_ingest. destruct (stamped now1 payload) as [d|]; [|exact (Q c)].
    rewrite online_critical, last_seen_critical.
    destruct (category_eqb c0 c); [right; eexists; reflexivity|exact (Q c)].
  - change (exec (Sweep t) s) with (check_device_status t s).
    rewrite online_check_device_status, last_seen_check_device_status.
    unfold swept_online.
    destruct (last_seen_of c (system_status s)) as [ls|] eqn:E.
    + right. exists ls. reflexivity.
    + destruct (Q c) as [H|[t' H]]; [left; exact H|congruence].
Qed.

(** Extra X6.  After any trace from the initial store, a category that is
    reported online has a [last_seen]: neither an ingest nor a sweep can
    leave a category online without one. *)
Theorem online_has_last_seen (ops : list op) (c : category) :
  online_of c (system_status (run initial_store ops)) = false \/
  exists t, last_seen_of c (system_status (run initial_store ops)) = Some t.
Proof.
  assert (G : forall s,
    (forall c, online_of c (system_status s) = false \/
               exists t, last_seen_of c (system_status s) = Some t) ->
    (forall c, online_of c (system_status (run s ops)) = false \/
               exists t, last_seen_of c (system_status (run s ops)) = Some t)).
  { induction ops as [|o rest IH]; intros s Q; [exact Q|].
    apply IH. apply online_seen_exec. exact Q. }
  apply G. intros c'. left. destruct c'; reflexivity.
Qed.

Lemma history_run_initial (c : category) (ops : list op) :
  history_of c (run initial_store ops) = lastn HISTORY_MAXLEN (accepted c ops).
Proof.
  apply (history_run c ops initial_store []). destruct c; reflexivity.
Qed.

(** Extra X7.  Whatever the [limit] query argument (absent, not an
    integer, negative, zero or positive), a history read after any trace
    returns a contiguous tail of the stored history, oldest first, and at
    most 1000 records. *)
Theorem history_read_is_tail (ops : list op) (c : category)
  (arg : option (option Z)) :
  let s := run initial_store ops in
  (exists pre, history_of c s = pre ++ get_history c arg s) /\
  (length (get_history c arg s) <= 1000)%nat.
Proof.
  cbv zeta. unfold get_history, py_slice_from. cbv zeta.
  set (h := history_of c (run initial_store ops)).
  set (n := Z.to_nat _).
  split.
  - exists (firstn n h). symmetry. apply firstn_skipn.
  - rewrite length_skipn.
    assert (Hh : (length h <= 1000)%nat).
    { unfold h. rewrite history_run_initial, length_lastn. unfold HISTORY_MAXLEN. lia. }
    lia.
Qed.

Lemma n_accepted_split (ops : list op) :
  n_accepted ops = (length (accepted vessel ops) + length (accepted buoy ops)
                    + length (accepted base_station ops))%nat.
Proof.
  induction ops as [|o rest IH]; [reflexivity|].
  destruct o as [c now1 now2 payload| | | | |]; simpl; try exact IH.
  rewrite !length_app, IH.
  destruct (stamped now1 payload); destruct c; simpl; lia.
Qed.

(** Extra X8.  After any trace, the three histories together never hold
    more records than [total_messages] counts, and they hold exactly that
    many as long as no category has been sent more than 1000 accepted
    records (eviction is the only way they fall behind). *)
Theorem histories_within_counter (ops : list op) :
  let s := run initial_store ops in
  let stored := (length (vessel_data_history s) + length (buoy_data_history s)
                 + length (base_station_data_history s))%nat in
  Z.of_nat stored <= total_messages (system_status s) /\
  ((length (accepted vessel ops) <= 1000 /\ length (accepted buoy ops) <= 1000 /\
    length (accepted base_station ops) <= 1000)%nat ->
   Z.of_nat stored = total_messages (system_status s)).
Proof.
  cbv zeta.
  pose proof (history_run_initial vessel ops) as Hv.
  pose proof (history_run_initial buoy ops) as Hb.
  pose proof (history_run_initial base_station ops) as Hs.
  simpl history_of in Hv, Hb, Hs. rewrite Hv, Hb, Hs, !length_lastn.
  rewrite total_run. simpl total_messages. rewrite n_accepted_split.
  unfold HISTORY_MAXLEN. split; [lia|]. intros (H1 & H2 & H3). lia.
Qed.

Lemma py_slice_from_lastn (l : list json) (k : nat) :
  (0 < k)%nat -> py_slice_from l (- Z.of_nat k) = lastn k l.
Proof.
  intros Hk. unfold py_slice_from, lastn.
  destruct (Z.ltb_spec (- Z.of_nat k) 0) as [_|Hc]; [|lia].
  f_equal. lia.
Qed.

Lemma lastn_lastn (k m : nat) (l : list json) :
  (k <= m)%nat -> lastn k (lastn m l) = lastn k l.
Proof.
  intros Hkm. unfold lastn at 1 3. rewrite length_lastn.
  unfold lastn. rewrite skipn_skipn. f_equal. lia.
Qed.

(** Extra X9.  After any trace, a history read with no [limit] argument,
    or with one that is not an integer, returns the last [min(100, N)]
    records accepted into the category, oldest first. *)
Theorem history_default_limit (ops : list op) (c : category) :
  get_history c None (run initial_store ops) = lastn 100 (accepted c ops) /\
  get_history c (Some None) (run initial_store ops) = lastn 100 (accepted c ops).
Proof.
  unfold get_history, args_get_limit. cbv zeta.
  rewrite history_run_initial.
  assert (E : py_slice_from (lastn HISTORY_MAXLEN (accepted c ops)) (- 100)
              = lastn 100 (accepted c ops)).
  { etransitivity; [apply (py_slice_from_lastn _ 100); lia|].
    unfold HISTORY_MAXLEN. apply lastn_lastn. lia. }
  split; exact E.
Qed.

(** Extra X10.  After an ingest that accepts a record into [c] with second
    clock reading [now2], a sweep at [t] leaves [c] online exactly when
    [t - now2] is at most 30 seconds. *)
Theorem sweep_after_ingest (c : category) (now1 now2 : instant) (payload d : json)
  (s : store) (t : instant) (Hd : stamped now1 payload = Some d) :
  online_of c (system_status (check_device_status t (exec (Ingest c now1 now2 payload) s)))
  = (t - now2 <=? 30000000).
Proof.
  rewrite online_check_device_status. unfold swept_online.
  rewrite exec_ingest, Hd, last_seen_critical, online_critical.
  replace (category_eqb c c) with true by (destruct c; reflexivity).
  unfold stale. rewrite Z.leb_antisym. destruct (30000000 <? t - now2); reflexivity.
Qed.

Lemma sweep_after_ingest_witness :
  stamped 5 sample_vessel_record
  = Some (JObj [("id", JStr "V1"); ("lat", JNum 12); ("lon", JNum 77);
                ("server_timestamp", JStr (isoformat 5))]) /\
  online_of vessel (system_status (check_device_status 30000006
     (exec (Ingest vessel 5 6 sample_vessel_record) initial_store))) = true.
Proof.
  assert (Hd : stamped 5 sample_vessel_record
               = Some (JObj [("id", JStr "V1"); ("lat", JNum 12); ("lon", JNum 77);
                             ("server_timestamp", JStr (isoformat 5))]))
    by reflexivity.
  split; [exact Hd|].
  exact (sweep_after_ingest vessel 5 6 sample_vessel_record _ initial_store
           30000006 Hd).
Defined.

End Extras.

(** ** Mutual exclusion and the message counter under interleaving *)
Module ConcurrentExtras.
Import Concurrent.
Import ConcurrentFacts.

Lemma n_counted_app (ts us : list ithread) :
  n_counted (ts ++ us) = (n_counted ts + n_counted us)%nat.
Proof.
  induction ts as [|th ts IH]; [reflexivity|]. simpl. rewrite IH. lia.
Qed.

Lemma n_counted_upd (ts : list ithread) (i : nat) (x th : ithread) :
  nth_error ts i = Some th ->
  Z.of_nat (n_counted (upd ts i x))
  = Z.of_nat (n_counted ts) - Z.of_nat (counted (t_pc th))
    + Z.of_nat (counted (t_pc x)).
Proof.
  revert i. induction ts as [|y ts IH]; intros i Hi.
  - destruct i; discriminate.
  - destruct i as [|i]; simpl in Hi.
    + injection Hi as <-. simpl. lia.
    + simpl. specialize (IH i Hi). lia.
Qed.

Lemma total_append_history (c : category) (d : json) (s : store) :
  total_messages (system_status (append_history c d s))
  = total_messages (system_status s).
Proof. destruct c; reflexivity. Qed.

Lemma total_set_current (c : category) (d : json) (s : store) :
  total_messages (system_status (set_current c d s))
  = total_messages (system_status s).
Proof. destruct c; reflexivity. Qed.

Lemma total_set_online (c : category) (b : bool) (s : store) :
  total_messages (system_status (map_status (set_online c b) s))
  = total_messages (system_status s).
Proof. destruct c; reflexivity. Qed.

Lemma total_set_last_seen (c : category) (t : instant) (s : store) :
  total_messages (system_status (map_status (set_last_seen c t) s))
  = total_messages (system_status s).
Proof. destruct c; reflexivity. Qed.

Lemma reachable_after_one_vessel_ingest : reachable after_one_vessel_ingest.
Proof.
  pose proof (reach_step _ _ reach_init
                (StSpawn init vessel (JObj [("id", JStr "V1")]))) as R1.
  match type of R1 with reachable ?x => pose proof (reach_step _ _ R1 (StStamp x 0 _ 5 _ eq_refl eq_refl eq_refl)) as R2 end.
  match type of R2 with reachable ?x => pose proof (reach_step _ _ R2 (StAcquire x 0 _ eq_refl eq_refl eq_refl)) as R3 end.
  match type of R3 with reachable ?x => pose proof (reach_step _ _ R3 (StAppend x 0 _ eq_refl eq_refl)) as R4 end.
  match type of R4 with reachable ?x => pose proof (reach_step _ _ R4 (StLatest x 0 _ eq_refl eq_refl)) as R5 end.
  match type of R5 with reachable ?x => pose proof (reach_step _ _ R5 (StOnline x 0 _ eq_refl eq_refl)) as R6 end.
  match type of R6 with reachable ?x => pose proof (reach_step _ _ R6 (StLastSeen x 0 _ 6 eq_refl eq_refl)) as R7 end.
  match type of R7 with reachable ?x => pose proof (reach_step _ _ R7 (StCount x 0 _ eq_refl eq_refl)) as R8 end.
  match type of R8 with reachable ?x => pose proof (reach_step _ _ R8 (StCountStore x 0 _ 0 eq_refl eq_refl)) as R8' end.
  match type of R8' with reachable ?x => pose proof (reach_step _ _ R8' (StRelease x 0 _ eq_refl eq_refl)) as R9 end.
  match type of R9 with reachable ?x => pose proof (reach_step _ _ R9 (StReaderAcquire x eq_refl)) as R10 end.
  exact R10.
Qed.

(** Extra X11.  In every interleaving of ingest handlers and readers, a
    thread inside the [with data_lock:] block of an ingest handler holds
    [data_lock] itself (so no reader holds it), and no other ingest thread
    is inside its own block at the same time. *)
Theorem critical_section_exclusive (cs : cstate) (Hr : reachable cs)
  (i : nat) (th : ithread) (Hi : nth_error (threads cs) i = Some th)
  (Hin : in_cs (t_pc th) = true) :
  lock cs = Some (HIngest i) /\
  (forall j thj, nth_error (threads cs) j = Some thj ->
                 in_cs (t_pc thj) = true -> j = i).
Proof.
  pose proof (inv_reachable cs Hr) as I.
  split.
  - exact (proj1 I i th Hi Hin).
  - intros j thj Hj Hjn. exact (cs_unique cs i j th thj I Hi Hin Hj Hjn).
Qed.

Lemma critical_section_exclusive_witness :
  exists cs th, reachable cs /\ nth_error (threads cs) 0 = Some th /\
    in_cs (t_pc th) = true /\ lock cs = Some (HIngest 0).
Proof.
  pose proof (reach_step _ _ reach_init
                (StSpawn init buoy (JObj [("id", JStr "B1")]))) as R1.
  match type of R1 with reachable ?x => pose proof (reach_step _ _ R1 (StStamp x 0 _ 7 _ eq_refl eq_refl eq_refl)) as R2 end.
  match type of R2 with reachable ?x => pose proof (reach_step _ _ R2 (StAcquire x 0 _ eq_refl eq_refl eq_refl)) as R3 end.
  match type of R3 with reachable ?x => exists x end.
  eexists. split; [exact R3|]. split; [reflexivity|]. split; [reflexivity|].
  exact (proj1 (critical_section_exclusive _ R3 0 _ eq_refl eq_refl)).
Defined.

Lemma total_set_total (n : Z) (s : store) :
  total_messages (system_status (map_status (set_total n) s)) = n.
Proof. reflexivity. Qed.

(** Threads that have read the counter and not yet stored it, after a step
    of thread [i] to [th']: their reading is the counter of [s'] if it was
    so for the others and is so for [th']. *)
Lemma pending_upd (cs : cstate) (i : nat) (th th' : ithread) (s' : store)
  (l' : option holder) :
  nth_error (threads cs) i = Some th ->
  (forall j thj v, j <> i -> nth_error (threads cs) j = Some thj ->
     t_pc thj = ICountStore v -> v = total_messages (system_status s')) ->
  (forall v, t_pc th' = ICountStore v -> v = total_messages (system_status s')) ->
  forall j thj v, nth_error (threads (next cs i th' s' l')) j = Some thj ->
    t_pc thj = ICountStore v -> v = total_messages (system_status (cst (next cs i th' s' l'))).
Proof.
  intros Hi Hother Hself j thj v Hj Hv. unfold next in *. cbn [cst threads] in *.
  rewrite (nth_error_upd _ _ _ _ _ Hi) in Hj.
  destruct (Nat.eqb_spec j i) as [->|Hne].
  - injection Hj as <-. exact (Hself v Hv).
  - exact (Hother j thj v Hne Hj Hv).
Qed.

(** The counter invariant: [total_messages] is the number of completed
    increments, and a thread between the read and the store of its
    increment read the counter's present value.  The second part needs the
    lock: no other thread can store a new value between that read and that
    store. *)
Lemma counter_invariant (cs : cstate) (Hr : reachable cs) :
  total_messages (system_status (cst cs)) = Z.of_nat (n_counted (threads cs)) /\
  (forall i th v, nth_error (threads cs) i = Some th -> t_pc th = ICountStore v ->
     v = total_messages (system_status (cst cs))).
Proof.
  induction Hr as [|cs cs' Hr [IH1 IH2] Hs].
  { split; [reflexivity|]. intros [|i] th v H; discriminate. }
  pose proof (inv_reachable cs Hr) as HI.
  destruct Hs as
    [cs c payload
    | cs i th now1 d Hi Hp Hd | cs i th now1 e Hi Hp He
    | cs i th Hi Hp Hl | cs i th Hi Hp | cs i th Hi Hp | cs i th Hi Hp
    | cs i th now2 Hi Hp | cs i th Hi Hp | cs i th v0 Hi Hp | cs i th Hi Hp
    | cs i th Hi Hp | cs Hl | cs Hl].
  - (* a new request *)
    cbn [cst threads]. split.
    + rewrite n_counted_app. simpl. lia.
    + intros j thj v Hj Hv.
      destruct (Nat.lt_ge_cases j (length (threads cs))) as [Hlt|Hge].
      * rewrite nth_error_app1 in Hj by exact Hlt. exact (IH2 j thj v Hj Hv).
      * rewrite nth_error_app2 in Hj by exact Hge.
        destruct (j - length (threads cs))%nat as [|k]; simpl in Hj;
          [injection Hj as <-; discriminate | destruct k; discriminate].
  - split; [unfold next; cbn [cst threads]; erewrite n_counted_upd by eassumption;
            rewrite Hp; cbn; lia|].
    apply (pending_upd cs i th); [exact Hi|intros j thj v _; apply IH2|discriminate].
  - split; [unfold next; cbn [cst threads]; erewrite n_counted_upd by eassumption;
            rewrite Hp; cbn; lia|].
    apply (pending_upd cs i th); [exact Hi|intros j thj v _; apply IH2|discriminate].
  - split; [unfold next; cbn [cst threads]; erewrite n_counted_upd by eassumption;
            rewrite Hp; cbn; lia|].
    apply (pending_upd cs i th); [exact Hi|intros j thj v _; apply IH2|discriminate].
  - split; [unfold next; cbn [cst threads]; erewrite n_counted_upd by eassumption;
            rewrite Hp, total_append_history; cbn; lia|].
    apply (pending_upd cs i th); [exact Hi| |discriminate].
    intros j thj v _ Hj Hv. rewrite total_append_history. exact (IH2 j thj v Hj Hv).
  - split; [unfold next; cbn [cst threads]; erewrite n_counted_upd by eassumption;
            rewrite Hp, total_set_current; cbn; lia|].
    apply (pending_upd cs i th); [exact Hi| |discriminate].
    intros j thj v _ Hj Hv. rewrite total_set_current. exact (IH2 j thj v Hj Hv).
  - split; [unfold next; cbn [cst threads]; erewrite n_counted_upd by eassumption;
            rewrite Hp, total_set_online; cbn; lia|].
    apply (pending_upd cs i th); [exact Hi| |discriminate].
    intros j thj v _ Hj Hv. rewrite total_set_online. exact (IH2 j thj v Hj Hv).
  - split; [unfold next; cbn [cst threads]; erewrite n_counted_upd by eassumption;
            rewrite Hp, total_set_last_seen; cbn; lia|].
    apply (pending_upd cs i th); [exact Hi| |discriminate].
    intros j thj v _ Hj Hv. rewrite total_set_last_seen. exact (IH2 j thj v Hj Hv).
  - (* the read of the counter *)
    split; [unfold next; cbn [cst threads]; erewrite n_counted_upd by eassumption;
            rewrite Hp; cbn; lia|].
    apply (pending_upd cs i th); [exact Hi|intros j thj v _; apply IH2|].
    intros v Hv. cbn in Hv. injection Hv as <-. reflexivity.
  - (* the store of the counter: the lock keeps every other thread out *)
    assert (Hv0 : v0 = total_messages (system_status (cst cs))) by exact (IH2 i th v0 Hi Hp).
    split; [unfold next; cbn [cst threads]; erewrite n_counted_upd by eassumption;
            rewrite Hp, total_set_total; cbn; lia|].
    apply (pending_upd cs i th); [exact Hi| |discriminate].
    intros j thj v Hne Hj Hv. exfalso. apply Hne.
    apply (cs_unique cs i j th thj HI Hi); [rewrite Hp; reflexivity|exact Hj|].
    rewrite Hv. reflexivity.
  - split; [unfold next; cbn [cst threads]; erewrite n_counted_upd by eassumption;
            rewrite Hp; cbn; lia|].
    apply (pending_upd cs i th); [exact Hi|intros j thj v _; apply IH2|discriminate].
  - split; [unfold next; cbn [cst threads]; erewrite n_counted_upd by eassumption;
            rewrite Hp; cbn; lia|].
    apply (pending_upd cs i th); [exact Hi|intros j thj v _; apply IH2|discriminate].
  - split; [exact IH1|exact IH2].
  - split; [exact IH1|exact IH2].
Qed.

(** Extra X12.  In every interleaving, [system_status['total_messages']]
    equals the number of ingest threads that have completed their
    [+= 1] (its read and its store).  The read and the store are separate
    steps, so this rests on [data_lock]: while one thread is between them
    no other thread can store, and no increment is lost. *)
Theorem counter_matches_counted (cs : cstate) (Hr : reachable cs) :
  total_messages (system_status (cst cs)) = Z.of_nat (n_counted (threads cs)).
Proof. exact (proj1 (counter_invariant cs Hr)). Qed.

Lemma counter_matches_counted_witness :
  reachable after_one_vessel_ingest /\
  total_messages (system_status (cst after_one_vessel_ingest)) = 1.
Proof.
  split; [exact reachable_after_one_vessel_ingest|].
  exact (counter_matches_counted _ reachable_after_one_vessel_ingest).
Defined.

End ConcurrentExtras.
